(** * Octopus: a shallow embedding of [src/Octopus.tsx]

    The component keeps nine reactive state cells, four timer handles and
    one timestamp, drives them from five self-rescheduling timer loops and
    three pointer handlers, and resolves a pose from the cells on every
    render.  The embedding below follows the source function by function:

    - numbers that the source only ever uses as small integers (grid cells,
      gaze components, limb indices) are [Z];
    - numbers that come from [Math.random()], [Date.now()] or the layout
      rectangle are rationals [Q], with the decimal literals of the source
      read exactly (a double is a dyadic rational; see [roll_lt_040_double]
      for the one literal that is not itself a double);
    - [Set<number>] is [gset Z];
    - every closure handed to [setTimeout] is one constructor of [Callback],
      carrying the variables the closure captured;
    - the timer queue, the clock and the random source are explicit fields
      of [World]. *)

From Stdlib Require Import ZArith QArith Qround Qabs List Bool Lia Lqa Sorted.
From stdpp Require Import base decidable countable gmap.
Import ListNotations.

Local Open Scope Z_scope.

(* ===================================================================== *)
(** ** Rational helpers                                                   *)
(* ===================================================================== *)

(** [a < b] on JS numbers, as a boolean. *)
Definition Qlt_bool (a b : Q) : bool := negb (Qle_bool b a).

(** [Math.floor] *)
Definition Math_floor (q : Q) : Z := Qfloor q.

(** [Math.abs] *)
Definition Math_abs (q : Q) : Q := Qabs q.

(** The decimal literals of the source. *)
Definition lit_0_25 : Q := 25 # 100.
Definition lit_0_35 : Q := 35 # 100.
Definition lit_0_40 : Q := 40 # 100.
Definition lit_0_4 : Q := 4 # 10.
Definition lit_0_5 : Q := 5 # 10.
Definition lit_0_60 : Q := 60 # 100.
Definition lit_0_80 : Q := 80 # 100.
Definition lit_0_65 : Q := 65 # 100.
Definition lit_0_45 : Q := 45 # 100.

(** The double nearest to 0.40 is [7205759403792794 / 2^54]; every double in
    [[1/4, 1/2)] is a multiple of [2^-54]. *)
Definition double_0_40 : Q := 7205759403792794 # (2 ^ 54).

(* ===================================================================== *)
(** ** mergeSpans and the pixel tables                                    *)
(* ===================================================================== *)

Record Span := mkSpan { span_r : Z; span_c : Z; span_w : Z }.

(** [byRow]: a JS [Map] keeps its keys in first-insertion order. *)
Fixpoint byRow_push (r c : Z) (m : list (Z * list Z)) : list (Z * list Z) :=
  match m with
  | [] => [(r, [c])]
  | (r', cols) :: rest =>
      if Z.eqb r r' then (r', cols ++ [c]) :: rest
      else (r', cols) :: byRow_push r c rest
  end.

Definition byRow (pixels : list (Z * Z)) : list (Z * list Z) :=
  fold_left (fun m p => byRow_push (fst p) (snd p) m) pixels [].

(** [cols.sort((a, b) => a - b)] *)
Fixpoint sort_insert (x : Z) (l : list Z) : list Z :=
  match l with
  | [] => [x]
  | y :: r => if Z.leb x y then x :: l else y :: sort_insert x r
  end.

Definition sort_cols (l : list Z) : list Z := fold_right sort_insert [] l.

(** The inner [for] loop over the sorted columns of one row, with the
    final [push] after it. *)
Fixpoint row_spans (r start_ end_ : Z) (cols : list Z) : list Span :=
  match cols with
  | [] => [mkSpan r start_ (end_ - start_ + 1)]
  | c :: rest =>
      if Z.eqb c (end_ + 1) then row_spans r start_ c rest
      else mkSpan r start_ (end_ - start_ + 1) :: row_spans r c c rest
  end.

Definition mergeSpans (pixels : list (Z * Z)) : list Span :=
  flat_map
    (fun rc : Z * list Z =>
       match sort_cols (snd rc) with
       | [] => []
       | c0 :: rest => row_spans (fst rc) c0 c0 rest
       end)
    (byRow pixels).

Definition HEAD_PIXELS : list (Z * Z) :=
  [ (1,4);(1,5);(1,6);(1,7);(1,8);
    (2,3);(2,4);(2,5);(2,6);(2,7);(2,8);(2,9);
    (3,2);(3,3);(3,6);(3,9);(3,10);
    (4,2);(4,3);(4,6);(4,9);(4,10);
    (5,2);(5,3);(5,4);(5,5);(5,6);(5,7);(5,8);(5,9);(5,10);
    (6,3);(6,4);(6,5);(6,6);(6,7);(6,8);(6,9) ].

Definition LEFT_EYE_PIXELS : list (Z * Z) := [(3,4);(3,5);(4,4);(4,5)].
Definition RIGHT_EYE_PIXELS : list (Z * Z) := [(3,7);(3,8);(4,7);(4,8)].

Definition HEAD : list Span := mergeSpans HEAD_PIXELS.
Definition LEFT_EYE : list Span := mergeSpans LEFT_EYE_PIXELS.
Definition RIGHT_EYE : list Span := mergeSpans RIGHT_EYE_PIXELS.

Record Tentacle := mkTentacle { t_c : Z; t_r : Z; t_h : Z }.

Definition TENTACLE_GROUPS : list Tentacle :=
  [ mkTentacle 3 8 3;   (* left outer *)
    mkTentacle 5 8 2;   (* left inner *)
    mkTentacle 7 8 2;   (* right inner *)
    mkTentacle 9 8 3 ]. (* right outer *)

Record Dir := mkDir { dir_x : Z; dir_y : Z }.

Definition LOOK_DIRS : list Dir :=
  [ mkDir (-1) (-1); mkDir 1 (-1);
    mkDir (-1) 1;    mkDir 1 1;
    mkDir 0 (-1);    mkDir 0 1;
    mkDir (-1) 0;    mkDir 1 0 ].

(* ===================================================================== *)
(** ** Component state                                                    *)
(* ===================================================================== *)

Inductive EyeMode := track | wander.

(** The nine [useState] cells. *)
Record State := mkState {
  pupilOffset  : Dir;
  isBlinking   : bool;
  isCrossEyed  : bool;
  crossEyedY   : Z;
  isHovered    : bool;
  randomPupil  : option Dir;   (* [null] and [undefined] are both [None] *)
  wiggleGroups : gset Z;
  flashRow     : option Z;
  eyeMode      : EyeMode
}.

Definition initial_state : State :=
  mkState (mkDir 0 0) false false 4 false None ∅ None track.

Definition setPupilOffset (v : Dir) (s : State) : State :=
  mkState v (isBlinking s) (isCrossEyed s) (crossEyedY s) (isHovered s)
          (randomPupil s) (wiggleGroups s) (flashRow s) (eyeMode s).
Definition setIsBlinking (v : bool) (s : State) : State :=
  mkState (pupilOffset s) v (isCrossEyed s) (crossEyedY s) (isHovered s)
          (randomPupil s) (wiggleGroups s) (flashRow s) (eyeMode s).
Definition setIsCrossEyed (v : bool) (s : State) : State :=
  mkState (pupilOffset s) (isBlinking s) v (crossEyedY s) (isHovered s)
          (randomPupil s) (wiggleGroups s) (flashRow s) (eyeMode s).
Definition setCrossEyedY (v : Z) (s : State) : State :=
  mkState (pupilOffset s) (isBlinking s) (isCrossEyed s) v (isHovered s)
          (randomPupil s) (wiggleGroups s) (flashRow s) (eyeMode s).
Definition setIsHovered (v : bool) (s : State) : State :=
  mkState (pupilOffset s) (isBlinking s) (isCrossEyed s) (crossEyedY s) v
          (randomPupil s) (wiggleGroups s) (flashRow s) (eyeMode s).
Definition setRandomPupil (v : option Dir) (s : State) : State :=
  mkState (pupilOffset s) (isBlinking s) (isCrossEyed s) (crossEyedY s)
          (isHovered s) v (wiggleGroups s) (flashRow s) (eyeMode s).
Definition setWiggleGroups (v : gset Z) (s : State) : State :=
  mkState (pupilOffset s) (isBlinking s) (isCrossEyed s) (crossEyedY s)
          (isHovered s) (randomPupil s) v (flashRow s) (eyeMode s).
Definition setFlashRow (v : option Z) (s : State) : State :=
  mkState (pupilOffset s) (isBlinking s) (isCrossEyed s) (crossEyedY s)
          (isHovered s) (randomPupil s) (wiggleGroups s) v (eyeMode s).
Definition setEyeMode (v : EyeMode) (s : State) : State :=
  mkState (pupilOffset s) (isBlinking s) (isCrossEyed s) (crossEyedY s)
          (isHovered s) (randomPupil s) (wiggleGroups s) (flashRow s) v.

(* ===================================================================== *)
(** ** Pose resolution (the render body)                                  *)
(* ===================================================================== *)

(** The role colour a rectangle is filled with ([colors.body] or
    [colors.eye]); the pupils use a fixed literal. *)
Inductive Fill := fill_body | fill_eye.

Record TentacleRect := mkTentacleRect {
  tr_x : Z; tr_y : Z; tr_h : Z; tr_opacity : Q
}.

Record Pose := mkPose {
  pose_lift      : Z;                     (* translateY, in px *)
  pose_head      : list (Span * Fill);
  pose_left_eye  : list (Span * Fill);
  pose_right_eye : list (Span * Fill);
  pose_pupils    : list (Z * Z);          (* (x, y) of each pupil rect *)
  pose_tentacles : list TentacleRect
}.

Definition effectivePupil (s : State) : Dir :=
  match eyeMode s, randomPupil s with
  | wander, Some d => d
  | _, _ => pupilOffset s
  end.

(** [v < 0 ? 0 : v > 0 ? 1 : 0] *)
Definition pupil_axis (v : Z) : Z :=
  if Z.ltb v 0 then 0 else if Z.ltb 0 v then 1 else 0.

Definition pupilX (s : State) : Z := pupil_axis (dir_x (effectivePupil s)).
Definition pupilY (s : State) : Z := pupil_axis (dir_y (effectivePupil s)).

(** [(leftPx, leftPy)] and [(rightPx, rightPy)] after the [isCrossEyed]
    override. *)
Definition leftP (s : State) : Z * Z :=
  if isCrossEyed s then (5, crossEyedY s) else (4 + pupilX s, 3 + pupilY s).
Definition rightP (s : State) : Z * Z :=
  if isCrossEyed s then (7, crossEyedY s) else (7 + pupilX s, 3 + pupilY s).

Definition eyesClosed (s : State) : bool := isBlinking s.

Definition render_tentacle (s : State) (gi : Z) (t : Tentacle) : TentacleRect :=
  let has := bool_decide (gi ∈ wiggleGroups s) in
  mkTentacleRect
    (t_c t + (if has then (if Z.ltb gi 2 then -1 else 1) else 0))
    (t_r t) (t_h t)
    (if has then lit_0_65 else lit_0_45).

Fixpoint map_index {A B} (f : Z -> A -> B) (i : Z) (l : list A) : list B :=
  match l with
  | [] => []
  | a :: r => f i a :: map_index f (i + 1) r
  end.

Definition render (s : State) : Pose :=
  mkPose
    (if isHovered s then -8 else 0)
    (map (fun sp => (sp, if bool_decide (flashRow s = Some (span_r sp))
                         then fill_eye else fill_body)) HEAD)
    (map (fun sp => (sp, if eyesClosed s then fill_body else fill_eye)) LEFT_EYE)
    (map (fun sp => (sp, if eyesClosed s then fill_body else fill_eye)) RIGHT_EYE)
    (if negb (eyesClosed s) then [leftP s; rightP s] else [])
    (map_index (render_tentacle s) 0 TENTACLE_GROUPS).

(* ===================================================================== *)
(** ** The host: timer queue, clock, random source                        *)
(* ===================================================================== *)

(** One constructor per closure that the source hands to [setTimeout].
    [cycle] and the closure it schedules capture the [pupilOffset] binding
    of the render in which the effect ran; the other closures capture
    nothing but state setters and literals. *)
Inductive Callback :=
| CbEyeTrackEnd (pupilOffset0 : Dir)   (* line 117: the track-phase timeout *)
| CbEyeCycle (pupilOffset0 : Dir)      (* line 127: [cycle] itself *)
| CbBlinkFire                          (* line 138 *)
| CbBlinkReopen                        (* line 142 *)
| CbBlinkReclose                       (* line 144 *)
| CbBlinkEnd                           (* lines 146, 151, 154 *)
| CbFlashFire                          (* line 166 *)
| CbSetFlashRow (row : option Z)       (* lines 169, 171 *)
| CbIdleFire                           (* line 183 *)
| CbSetWiggleGroups (g : gset Z)       (* lines 193, 198, 223-226 *)
| CbWaveStep (gi : Z)                  (* line 196 *)
| CbCrossEyeBlink                      (* line 205 *)
| CbCrossEyeEnd                        (* line 207 *)
| CbSetIsBlinking (b : bool).          (* line 221 *)

Record Timer := mkTimer { timer_id : nat; timer_due : Q; timer_cb : Callback }.

Record Host := mkHost {
  timers  : list Timer;   (* pending timeouts, in creation order *)
  next_id : nat;          (* next handle [setTimeout] returns *)
  now     : Q;            (* the clock, in ms *)
  rng     : nat -> Q;     (* the sequence [Math.random()] will return *)
  rng_ix  : nat           (* how many draws were made *)
}.

(** The [useRef] cells. *)
Record Refs := mkRefs {
  blinkRef : option nat;
  idleRef  : option nat;
  eyeRef   : option nat;
  flashRef : option nat;
  lastMouseMoveRef : Q
}.

Record World := mkWorld {
  st      : State;
  refs    : Refs;
  host    : Host;
  mounted : bool
}.

Definition with_st (f : State -> State) (w : World) : World :=
  mkWorld (f (st w)) (refs w) (host w) (mounted w).
Definition with_refs (f : Refs -> Refs) (w : World) : World :=
  mkWorld (st w) (f (refs w)) (host w) (mounted w).
Definition with_host (f : Host -> Host) (w : World) : World :=
  mkWorld (st w) (refs w) (f (host w)) (mounted w).
Definition with_mounted (b : bool) (w : World) : World :=
  mkWorld (st w) (refs w) (host w) b.

Definition with_timers (f : list Timer -> list Timer) (h : Host) : Host :=
  mkHost (f (timers h)) (next_id h) (now h) (rng h) (rng_ix h).
Definition with_now (t : Q) (h : Host) : Host :=
  mkHost (timers h) (next_id h) t (rng h) (rng_ix h).

(** *** A state monad with failure (failure = the fuel of a loop ran out) *)

Definition M (A : Type) : Type := World -> option (A * World).

Definition ret {A} (a : A) : M A := fun w => Some (a, w).

Definition bind {A B} (m : M A) (k : A -> M B) : M B :=
  fun w => match m w with
           | Some (a, w') => k a w'
           | None => None
           end.

Definition out_of_fuel {A} : M A := fun _ => None.

Declare Scope js_scope.
Delimit Scope js_scope with js.
Notation "x <- c ;; k" := (bind c (fun x => k))
  (at level 100, c at next level, right associativity) : js_scope.
Notation "c ;;; k" := (bind c (fun _ => k))
  (at level 100, right associativity) : js_scope.
Local Open Scope js_scope.

(** [setX(v)]: a write to a state cell. *)
Definition setState (f : State -> State) : M unit :=
  fun w => Some (tt, with_st f w).

Definition getState : M State := fun w => Some (st w, w).
Definition getRefs : M Refs := fun w => Some (refs w, w).

Definition put_blinkRef (id : nat) : M unit :=
  fun w => Some (tt, with_refs (fun r =>
    mkRefs (Some id) (idleRef r) (eyeRef r) (flashRef r) (lastMouseMoveRef r)) w).
Definition put_idleRef (id : nat) : M unit :=
  fun w => Some (tt, with_refs (fun r =>
    mkRefs (blinkRef r) (Some id) (eyeRef r) (flashRef r) (lastMouseMoveRef r)) w).
Definition put_eyeRef (id : nat) : M unit :=
  fun w => Some (tt, with_refs (fun r =>
    mkRefs (blinkRef r) (idleRef r) (Some id) (flashRef r) (lastMouseMoveRef r)) w).
Definition put_flashRef (id : nat) : M unit :=
  fun w => Some (tt, with_refs (fun r =>
    mkRefs (blinkRef r) (idleRef r) (eyeRef r) (Some id) (lastMouseMoveRef r)) w).
Definition put_lastMouseMoveRef (t : Q) : M unit :=
  fun w => Some (tt, with_refs (fun r =>
    mkRefs (blinkRef r) (idleRef r) (eyeRef r) (flashRef r) t) w).

(** [Math.random()] *)
Definition Math_random : M Q :=
  fun w => Some (rng (host w) (rng_ix (host w)),
                 with_host (fun h => mkHost (timers h) (next_id h) (now h)
                                            (rng h) (S (rng_ix h))) w).

(** [Date.now()] *)
Definition Date_now : M Q := fun w => Some (now (host w), w).

(** [setTimeout(cb, delay)]: appends a pending timer and returns its handle. *)
Definition setTimeout (cb : Callback) (delay : Q) : M nat :=
  fun w =>
    let h := host w in
    Some (next_id h,
          with_host (fun h => mkHost
            (timers h ++ [mkTimer (next_id h) (now h + delay)%Q cb])
            (S (next_id h)) (now h) (rng h) (rng_ix h)) w).

(** [clearTimeout(handle)]: [undefined] and handles of timers that have
    already fired are ignored. *)
Definition clear_id (id : nat) (ts : list Timer) : list Timer :=
  List.filter (fun t => negb (Nat.eqb (timer_id t) id)) ts.

Definition clearTimeout (handle : option nat) : M unit :=
  fun w => match handle with
           | None => Some (tt, w)
           | Some id => Some (tt, with_host (with_timers (clear_id id)) w)
           end.

(** [l.forEach((x, i) => f i x)] *)
Fixpoint forEach {A} (f : Z -> A -> M unit) (i : Z) (l : list A) : M unit :=
  match l with
  | [] => ret tt
  | a :: r => f i a ;;; forEach f (i + 1) r
  end.

(** [l[i]] for a computed index: [undefined] out of range. *)
Definition js_index {A} (l : list A) (i : Z) : option A :=
  if Z.ltb i 0 then None else nth_error l (Z.to_nat i).

(* ===================================================================== *)
(** ** Mouse tracking (lines 88-109)                                      *)
(* ===================================================================== *)

Record MouseEvent := mkMouseEvent { clientX : Q; clientY : Q }.

(** What [getBoundingClientRect()] returns. *)
Record DOMRect := mkDOMRect {
  rect_left : Q; rect_top : Q; rect_width : Q; rect_height : Q
}.

Definition dead : Q := 30.

(** [Math.abs(d) > dead ? (d > 0 ? 1 : -1) : 0] *)
Definition gaze_axis (d : Q) : Z :=
  if Qlt_bool dead (Math_abs d) then (if Qlt_bool 0 d then 1 else -1) else 0.

Definition ref_cx (rect : DOMRect) : Q := (rect_left rect + rect_width rect / 2)%Q.
Definition ref_cy (rect : DOMRect) : Q := (rect_top rect + rect_height rect * lit_0_35)%Q.

(** The [mousemove] listener.  [svg] is [svgRef.current]: [None] when the
    element is not there to be measured. *)
Definition handler (e : MouseEvent) (svg : option DOMRect) : M unit :=
  t <- Date_now ;;
  put_lastMouseMoveRef t ;;;
  s <- getState ;;
  (match eyeMode s with
   | wander => setState (setEyeMode track) ;;; setState (setRandomPupil None)
   | track => ret tt
   end) ;;;
  match svg with
  | None => ret tt
  | Some rect =>
      let dx := (clientX e - ref_cx rect)%Q in
      let dy := (clientY e - ref_cy rect)%Q in
      setState (setPupilOffset (mkDir (gaze_axis dx) (gaze_axis dy)))
  end.

(* ===================================================================== *)
(** ** Eye mode cycle (lines 112-132)                                     *)
(* ===================================================================== *)

(** [v < 0 ? -1 : v > 0 ? 1 : 0] *)
Definition sign_axis (v : Z) : Z :=
  if Z.ltb v 0 then -1 else if Z.ltb 0 v then 1 else 0.

(** [LOOK_DIRS.filter(d => d.x !== mouseX || d.y !== mouseY)] *)
Definition away_dirs (mouseX mouseY : Z) : list Dir :=
  List.filter (fun d => negb (Z.eqb (dir_x d) mouseX) || negb (Z.eqb (dir_y d) mouseY))
              LOOK_DIRS.

(** [cycle], closed over the [pupilOffset] of the render whose effect
    defined it. *)
Definition cycle (pupilOffset0 : Dir) : M unit :=
  setState (setEyeMode track) ;;;
  setState (setRandomPupil None) ;;;
  r <- Math_random ;;
  let trackDur := (5000 + r * 3000)%Q in
  id <- setTimeout (CbEyeTrackEnd pupilOffset0) trackDur ;;
  put_eyeRef id.

Definition eye_track_end (pupilOffset0 : Dir) : M unit :=
  t <- Date_now ;;
  rf <- getRefs ;;
  let mouseIdle := (t - lastMouseMoveRef rf)%Q in
  if Qlt_bool mouseIdle 2000 then cycle pupilOffset0
  else
    setState (setEyeMode wander) ;;;
    let mouseX := sign_axis (dir_x pupilOffset0) in
    let mouseY := sign_axis (dir_y pupilOffset0) in
    let away := away_dirs mouseX mouseY in
    r <- Math_random ;;
    let dir := js_index away (Math_floor (r * inject_Z (Z.of_nat (length away)))) in
    setState (setRandomPupil dir) ;;;
    r' <- Math_random ;;
    let wanderDur := (800 + r' * 1200)%Q in
    id <- setTimeout (CbEyeCycle pupilOffset0) wanderDur ;;
    put_eyeRef id.

(* ===================================================================== *)
(** ** Auto blink (lines 135-160)                                         *)
(* ===================================================================== *)

Definition blink_schedule : M unit :=
  r <- Math_random ;;
  let delay := (2000 + r * 6000)%Q in
  id <- setTimeout CbBlinkFire delay ;;
  put_blinkRef id.

Definition blink_fire : M unit :=
  roll <- Math_random ;;
  if Qlt_bool roll lit_0_25 then
    setState (setIsBlinking true) ;;;
    _ <- setTimeout CbBlinkReopen 80 ;; ret tt
  else if Qlt_bool roll lit_0_40 then
    setState (setIsBlinking true) ;;;
    _ <- setTimeout CbBlinkEnd 250 ;; ret tt
  else
    setState (setIsBlinking true) ;;;
    _ <- setTimeout CbBlinkEnd 100 ;; ret tt.

Definition blink_reopen : M unit :=
  setState (setIsBlinking false) ;;;
  _ <- setTimeout CbBlinkReclose 150 ;; ret tt.

Definition blink_reclose : M unit :=
  setState (setIsBlinking true) ;;;
  _ <- setTimeout CbBlinkEnd 80 ;; ret tt.

Definition blink_end : M unit :=
  setState (setIsBlinking false) ;;;
  blink_schedule.

(* ===================================================================== *)
(** ** Flash sweep (lines 163-177)                                        *)
(* ===================================================================== *)

Definition flash_schedule : M unit :=
  r <- Math_random ;;
  let delay := (15000 + r * 5000)%Q in
  id <- setTimeout CbFlashFire delay ;;
  put_flashRef id.

Definition flash_fire : M unit :=
  let rows := [1; 2; 3; 4; 5; 6] in
  forEach (fun i row =>
             _ <- setTimeout (CbSetFlashRow (Some row)) (inject_Z i * 70)%Q ;; ret tt)
          0 rows ;;;
  _ <- setTimeout (CbSetFlashRow None) (inject_Z (Z.of_nat (length rows)) * 70)%Q ;;
  flash_schedule.

(* ===================================================================== *)
(** ** Random idle (lines 180-216)                                        *)
(* ===================================================================== *)

Definition idle_schedule : M unit :=
  r <- Math_random ;;
  let delay := (5000 + r * 3000)%Q in
  id <- setTimeout CbIdleFire delay ;;
  put_idleRef id.

(** [while (indices.size < count) indices.add(Math.floor(Math.random() * 4))].
    Each iteration uses one unit of fuel. *)
Fixpoint draw_indices (fuel : nat) (count : nat) (indices : gset Z) : M (gset Z) :=
  if (size indices <? count)%nat then
    match fuel with
    | O => out_of_fuel
    | S fuel' =>
        r <- Math_random ;;
        draw_indices fuel' count (indices ∪ {[ Math_floor (r * 4) ]})
    end
  else ret indices.

Definition idle_fire (fuel : nat) : M unit :=
  roll <- Math_random ;;
  (if Qlt_bool roll lit_0_40 then
     c <- Math_random ;;
     let count := if Qlt_bool c lit_0_4 then 2%nat else 1%nat in
     indices <- draw_indices fuel count ∅ ;;
     setState (setWiggleGroups indices) ;;;
     r <- Math_random ;;
     _ <- setTimeout (CbSetWiggleGroups ∅) (250 + r * 200)%Q ;; ret tt
   else if Qlt_bool roll lit_0_60 then
     forEach (fun i gi =>
                _ <- setTimeout (CbWaveStep gi) (inject_Z i * 150)%Q ;; ret tt)
             0 [0; 1; 2; 3]
   else if Qlt_bool roll lit_0_80 then
     setState (setIsCrossEyed true) ;;;
     c <- Math_random ;;
     setState (setCrossEyedY (if Qlt_bool c lit_0_5 then 3 else 4)) ;;;
     r <- Math_random ;;
     let dur := (1500 + r * 500)%Q in
     _ <- setTimeout CbCrossEyeBlink dur ;; ret tt
   else ret tt) ;;;
  idle_schedule.

Definition wave_step (gi : Z) : M unit :=
  setState (setWiggleGroups {[ gi ]}) ;;;
  _ <- setTimeout (CbSetWiggleGroups ∅) 200 ;; ret tt.

Definition cross_eye_blink : M unit :=
  setState (setIsBlinking true) ;;;
  _ <- setTimeout CbCrossEyeEnd 100 ;; ret tt.

Definition cross_eye_end : M unit :=
  setState (setIsCrossEyed false) ;;;
  setState (setIsBlinking false).

(* ===================================================================== *)
(** ** Pointer enter and leave (lines 218-231)                            *)
(* ===================================================================== *)

Definition handleMouseEnter : M unit :=
  setState (setIsHovered true) ;;;
  setState (setIsBlinking true) ;;;
  _ <- setTimeout (CbSetIsBlinking false) 120 ;;
  _ <- setTimeout (CbSetWiggleGroups {[1; 2]}) 50 ;;
  _ <- setTimeout (CbSetWiggleGroups {[0; 1; 2; 3]}) 150 ;;
  _ <- setTimeout (CbSetWiggleGroups {[0; 3]}) 300 ;;
  _ <- setTimeout (CbSetWiggleGroups ∅) 450 ;;
  ret tt.

Definition handleMouseLeave : M unit :=
  setState (setIsHovered false).

(* ===================================================================== *)
(** ** Running a timer callback                                           *)
(* ===================================================================== *)

Definition run_callback (fuel : nat) (cb : Callback) : M unit :=
  match cb with
  | CbEyeTrackEnd p0 => eye_track_end p0
  | CbEyeCycle p0 => cycle p0
  | CbBlinkFire => blink_fire
  | CbBlinkReopen => blink_reopen
  | CbBlinkReclose => blink_reclose
  | CbBlinkEnd => blink_end
  | CbFlashFire => flash_fire
  | CbSetFlashRow row => setState (setFlashRow row)
  | CbIdleFire => idle_fire fuel
  | CbSetWiggleGroups g => setState (setWiggleGroups g)
  | CbWaveStep gi => wave_step gi
  | CbCrossEyeBlink => cross_eye_blink
  | CbCrossEyeEnd => cross_eye_end
  | CbSetIsBlinking b => setState (setIsBlinking b)
  end.

(** The pending timer that is due first; among timers due at the same
    time, the one created first.  Returns it with the remaining queue. *)
Fixpoint pop_earliest (ts : list Timer) : option (Timer * list Timer) :=
  match ts with
  | [] => None
  | t :: rest =>
      match pop_earliest rest with
      | None => Some (t, [])
      | Some (m, rest') =>
          if Qle_bool (timer_due t) (timer_due m) then Some (t, rest)
          else Some (m, t :: rest')
      end
  end.

(** The event loop runs the next timer: the clock moves to its due time
    (if it is not already past it) and the callback runs.  With nothing
    pending, nothing happens. *)
Definition fire_next (fuel : nat) : M unit :=
  fun w =>
    match pop_earliest (timers (host w)) with
    | None => Some (tt, w)
    | Some (t, rest) =>
        let t_run := if Qle_bool (timer_due t) (now (host w))
                     then now (host w) else timer_due t in
        run_callback fuel (timer_cb t)
          (with_host (fun h => mkHost rest (next_id h) t_run (rng h) (rng_ix h)) w)
    end.

(* ===================================================================== *)
(** ** Mount, unmount and the events of a run                             *)
(* ===================================================================== *)

(** The world before the effects of the first render have run. *)
Definition blank (t0 : Q) (random : nat -> Q) : World :=
  mkWorld initial_state
          (mkRefs None None None None 0)
          (mkHost [] 1 t0 random 0)
          true.

(** The four timer effects, in source order.  The first render sees the
    initial state, so that is the [pupilOffset] [cycle] closes over. *)
Definition mount_effects : M unit :=
  s <- getState ;;
  cycle (pupilOffset s) ;;;
  blink_schedule ;;;
  flash_schedule ;;;
  idle_schedule.

Definition mount (t0 : Q) (random : nat -> Q) : option World :=
  match mount_effects (blank t0 random) with
  | Some (_, w) => Some w
  | None => None
  end.

(** The effect cleanups, in source order; the listeners go with them. *)
Definition unmount : M unit :=
  rf <- getRefs ;;
  clearTimeout (eyeRef rf) ;;;
  clearTimeout (blinkRef rf) ;;;
  clearTimeout (flashRef rf) ;;;
  clearTimeout (idleRef rf) ;;;
  (fun w => Some (tt, with_mounted false w)).

Inductive Event :=
| EvTick (d : Q)                                   (* the clock moves on *)
| EvFire (fuel : nat)                              (* the next timer runs *)
| EvMouseMove (e : MouseEvent) (svg : option DOMRect)
| EvMouseEnter
| EvMouseLeave
| EvUnmount.

Definition exec (m : M unit) (w : World) : option World :=
  match m w with
  | Some (_, w') => Some w'
  | None => None
  end.

(** Pointer events reach the component only while it is mounted. *)
Definition step (ev : Event) (w : World) : option World :=
  match ev with
  | EvTick d =>
      if Qle_bool 0 d then Some (with_host (fun h => with_now (now h + d)%Q h) w)
      else None
  | EvFire fuel => exec (fire_next fuel) w
  | EvMouseMove e svg => if mounted w then exec (handler e svg) w else Some w
  | EvMouseEnter => if mounted w then exec handleMouseEnter w else Some w
  | EvMouseLeave => if mounted w then exec handleMouseLeave w else Some w
  | EvUnmount => if mounted w then exec unmount w else Some w
  end.

Fixpoint run (evs : list Event) (w : World) : option World :=
  match evs with
  | [] => Some w
  | ev :: rest =>
      match step ev w with
      | Some w' => run rest w'
      | None => None
      end
  end.

(** The worlds a mounted component can be in. *)
Inductive reachable : World -> Prop :=
| reach_mount t0 random w :
    mount t0 random = Some w -> reachable w
| reach_step ev w w' :
    reachable w -> step ev w = Some w' -> reachable w'.

(* ===================================================================== *)
(** * Vocabulary of the properties                                      *)
(* ===================================================================== *)

(* --------------------------------------------------------------------- *)
(** ** Observations                                                       *)
(* --------------------------------------------------------------------- *)

(** What a computation added to the timer queue. *)
Definition new_timers (w w' : World) : list Timer :=
  skipn (length (timers (host w))) (timers (host w')).

(** What a test observes of the interaction: hover, blink, wiggle set. *)
Definition observe (w : World) : bool * bool * gset Z :=
  (isHovered (st w), isBlinking (st w), wiggleGroups (st w)).

(** The clock and the observation after each of the next [n] timers. *)
Fixpoint fire_trace (fuel n : nat) (w : World) : list (Q * (bool * bool * gset Z)) :=
  match n with
  | O => []
  | S n' =>
      match exec (fire_next fuel) w with
      | Some w' => (now (host w'), observe w') :: fire_trace fuel n' w'
      | None => []
      end
  end.

(** The draw the next [Math.random()] call returns. *)
Definition next_draw (w : World) : Q := rng (host w) (rng_ix (host w)).

(** [Math.random()] returns a number in [[0, 1)]. *)
Definition unit_draw (r : Q) : Prop := (0 <= r)%Q /\ (r < 1)%Q.

(* --------------------------------------------------------------------- *)
(** ** Blink episodes                                                     *)
(* --------------------------------------------------------------------- *)






(* --------------------------------------------------------------------- *)
(** ** Pose                                                               *)
(* --------------------------------------------------------------------- *)

(** Every rectangle of both eyes is filled with the body colour. *)
Definition eyes_drawn_closed (p : Pose) : Prop :=
  map fst (pose_left_eye p) = LEFT_EYE /\
  map fst (pose_right_eye p) = RIGHT_EYE /\
  Forall (fun sf => snd sf = fill_body) (pose_left_eye p ++ pose_right_eye p).

(** The callbacks that end a blink without touching the override. *)
Definition ends_blink_only (cb : Callback) : bool :=
  match cb with
  | CbSetIsBlinking false | CbBlinkReopen | CbBlinkEnd => true
  | _ => false
  end.

(** [v > 0 ? 1 : 0], the two-valued offset. *)
Definition offset01 (v : Z) : Z := if Z.ltb 0 v then 1 else 0.

(* --------------------------------------------------------------------- *)
(** ** Invariants                                                         *)
(* --------------------------------------------------------------------- *)

(** [m] keeps [I]: whenever it returns, [I] still holds. *)
Definition preserves {A} (I : World -> Prop) (m : M A) : Prop :=
  forall w a w', I w -> m w = Some (a, w') -> I w'.

(** The closures each closure passes to [setTimeout], read off the source. *)
Definition schedules (cb : Callback) : list Callback :=
  match cb with
  | CbEyeTrackEnd p => [CbEyeTrackEnd p; CbEyeCycle p]
  | CbEyeCycle p => [CbEyeTrackEnd p]
  | CbBlinkFire => [CbBlinkReopen; CbBlinkEnd]
  | CbBlinkReopen => [CbBlinkReclose]
  | CbBlinkReclose => [CbBlinkEnd]
  | CbBlinkEnd => [CbBlinkFire]
  | CbFlashFire =>
      [CbSetFlashRow (Some 1); CbSetFlashRow (Some 2); CbSetFlashRow (Some 3);
       CbSetFlashRow (Some 4); CbSetFlashRow (Some 5); CbSetFlashRow (Some 6);
       CbSetFlashRow None; CbFlashFire]
  | CbIdleFire =>
      [CbSetWiggleGroups ∅; CbWaveStep 0; CbWaveStep 1; CbWaveStep 2;
       CbWaveStep 3; CbCrossEyeBlink; CbIdleFire]
  | CbWaveStep _ => [CbSetWiggleGroups ∅]
  | CbCrossEyeBlink => [CbCrossEyeEnd]
  | CbSetFlashRow _ | CbSetWiggleGroups _ | CbCrossEyeEnd | CbSetIsBlinking _ => []
  end.

(** Relative to [w0]: the mount flag is the same and the queue grew by
    timers whose callbacks are all in [L]. *)
Definition grew_by (L : list Callback) (w0 w : World) : Prop :=
  mounted w = mounted w0 /\
  exists added,
    timers (host w) = timers (host w0) ++ added /\
    Forall (fun t => In (timer_cb t) L) added.

(** The convergence height is one of the two the idle gesture can pick. *)
Definition height_ok (w : World) : Prop :=
  crossEyedY (st w) = 3 \/ crossEyedY (st w) = 4.

(** The timeouts that belong to the autonomous blink loop: the cycle's
    delay and the steps of an episode. *)
Definition is_blink_cb (cb : Callback) : bool :=
  match cb with
  | CbBlinkFire | CbBlinkReopen | CbBlinkReclose | CbBlinkEnd => true
  | _ => false
  end.

Definition blink_timers (ts : list Timer) : list Timer :=
  List.filter (fun t => is_blink_cb (timer_cb t)) ts.

Definition blink_pending (w : World) : list Timer := blink_timers (timers (host w)).

(** At most one timeout of the loop is pending, and exactly one while the
    component is mounted. *)
Definition one_in_flight (w : World) : Prop :=
  (length (blink_pending w) <= 1)%nat /\
  (mounted w = true -> length (blink_pending w) = 1%nat).

(** The closures of the eye cycle hold the [pupilOffset] of the first
    render. *)
Definition captures_first_render (cb : Callback) : Prop :=
  match cb with
  | CbEyeTrackEnd p | CbEyeCycle p => p = pupilOffset initial_state
  | _ => True
  end.

Definition stale_capture (w : World) : Prop :=
  Forall (fun t => captures_first_render (timer_cb t)) (timers (host w)).

(** The gaze direction the pointer last produced, sign-normalised. *)
Definition tracked_dir (w : World) : Dir :=
  mkDir (sign_axis (dir_x (pupilOffset (st w))))
        (sign_axis (dir_y (pupilOffset (st w)))).

(* --------------------------------------------------------------------- *)
(** ** Concrete runs                                                      *)
(* --------------------------------------------------------------------- *)

(** A finite random source: the listed draws, then zeros. *)
Definition draws (l : list Q) : nat -> Q := fun n => nth n l 0%Q.

(** The world after mounting at [t0] with the draws [random] and then the
    events [evs]. *)
Definition world_after (t0 : Q) (random : nat -> Q) (evs : list Event) : World :=
  match mount t0 random with
  | Some w => match run evs w with
              | Some w' => w'
              | None => blank t0 random
              end
  | None => blank t0 random
  end.

(** The idle timer fires first and its draw 7/10 falls in the cross-eye
    band; the next draw 1/4 picks height 3. *)
Definition cross_eye_draws : nat -> Q :=
  draws [1 # 2; 3 # 4; 0; 0; 7 # 10; 1 # 4; 0; 0]%Q.

Definition cross_eyed_world : World :=
  world_after 0 cross_eye_draws [EvFire 0].

(** The blink timer fires first and its draw 0 starts a double blink: the
    world is in the middle of an episode. *)
Definition mid_blink_world : World :=
  world_after 0 (draws [1 # 2; 0; 0; 0; 0]%Q) [EvFire 0].

(** Freshly mounted, draws all 0: the four loops are due at 5000, 2000,
    15000 and 5000 ms. *)
Definition fresh_world : World := world_after 0 (draws []) [].

(** The pointer moves to displacement (100, -50) one millisecond after
    mount; the track phase ends at 5000 ms with the pointer idle, and the
    draw 1/8 selects index 1 of the eight directions. *)
Definition wander_draws : nat -> Q := draws [0; 3 # 4; 0; 1 # 2; 1 # 8; 1 # 2]%Q.

Definition wander_events : list Event :=
  [ EvTick 1;
    EvMouseMove (mkMouseEvent 160 92) (Some (mkDOMRect 0 100 120 120));
    EvFire 0 ].

(** Pointer-enter, then unmount 10 ms later. *)
Definition torn_down_world : World :=
  world_after 0 (draws []) [EvMouseEnter; EvTick 10; EvUnmount].

(** The unmounted component in the middle of a blink episode. *)
Definition torn_down_mid_blink : World :=
  world_after 0 (draws [1 # 2; 0; 0; 0; 0]%Q) [EvFire 0; EvUnmount].

(* --------------------------------------------------------------------- *)
(** ** Spans                                                              *)
(* --------------------------------------------------------------------- *)

(** The cell (row [r], column [c]) lies under the span. *)
Definition covers (s : Span) (r c : Z) : Prop :=
  span_r s = r /\ span_c s <= c < span_c s + span_w s.

(** Two spans of one row with at least one free cell between them, the
    first to the left. *)
Definition apart (s1 s2 : Span) : Prop :=
  span_r s1 = span_r s2 -> span_c s1 + span_w s1 < span_c s2.
(* --------------------------------------------------------------------- *)
(** ** Geometry of the pose                                               *)
(* --------------------------------------------------------------------- *)

(** A pupil rect, given as (x, y), sits on a pixel of the list, given as
    (row, column). *)
Definition on_pixels (p : Z * Z) (pixels : list (Z * Z)) : Prop :=
  In (snd p, fst p) pixels.

(** The part of the wiggle set the renderer looks at. *)
Definition wiggle_mask (g : gset Z) : list bool :=
  [bool_decide (0 ∈ g); bool_decide (1 ∈ g); bool_decide (2 ∈ g); bool_decide (3 ∈ g)].

(** Column and opacity of a limb: [out] when displaced, [rest] otherwise. *)
Definition limb_at (out rest : Z) (displaced : bool) : Z * Q :=
  (if displaced then out else rest, if displaced then lit_0_65 else lit_0_45).
(* --------------------------------------------------------------------- *)
(** ** Invariants over the state and the pending callbacks                *)
(* --------------------------------------------------------------------- *)

(** [SP] holds of the state cells (it may mention the random source) and
    every pending callback is [good]. *)
Definition keeps (SP : State -> (nat -> Q) -> Prop) (good : Callback -> Prop)
    (w : World) : Prop :=
  SP (st w) (rng (host w)) /\
  Forall (fun t => good (timer_cb t)) (timers (host w)).

(** The rows of the head, which the sweep walks through. *)
Definition band_row (row : option Z) : Prop :=
  match row with
  | None => True
  | Some r => 1 <= r <= 6
  end.

Definition flash_good (cb : Callback) : Prop :=
  match cb with
  | CbSetFlashRow row => band_row row
  | _ => True
  end.
(* --------------------------------------------------------------------- *)
(** ** The wiggle set                                                     *)
(* --------------------------------------------------------------------- *)

(** The world after [k] more calls of [Math.random()]. *)
Definition advance_rng (k : nat) (w : World) : World :=
  with_host (fun h => mkHost (timers h) (next_id h) (now h) (rng h)
                             (k + rng_ix h)%nat) w.

(** The limb indices that the draws number [ix], ..., [ix + k - 1] give. *)
Fixpoint drawn (random : nat -> Q) (ix k : nat) : gset Z :=
  match k with
  | O => ∅
  | S k' => {[ Math_floor (random ix * 4) ]} ∪ drawn random (S ix) k'
  end.

(** Only limbs 0..3. *)
Definition limbs_only (g : gset Z) : Prop := forall x, x ∈ g -> 0 <= x <= 3.

Definition valid_draws (random : nat -> Q) : Prop := forall n, unit_draw (random n).

Definition wiggle_good (cb : Callback) : Prop :=
  match cb with
  | CbSetWiggleGroups g => limbs_only g
  | CbWaveStep gi => 0 <= gi <= 3
  | _ => True
  end.

(** A random source that cycles through 0, 1/8, ..., 6/8. *)
Definition cyc_draws (n : nat) : Q := Z.of_nat (n mod 7) # 8.

Fixpoint fires (fuel k : nat) : list Event :=
  match k with
  | O => []
  | S k' => EvFire fuel :: fires fuel k'
  end.

(** Nineteen timers into a run: three rows into the first flash sweep. *)
Definition sweep_world : World := world_after 0 cyc_draws (fires 5 19).

(** Five timers into the same run: an idle wiggle of limbs 2 and 3. *)
Definition wiggle_world : World := world_after 0 cyc_draws (fires 5 5).

(** With draws in [0,1) the wiggle set holds limbs only. *)
Definition wiggle_SP (s : State) (random : nat -> Q) : Prop :=
  valid_draws random -> limbs_only (wiggleGroups s).
(* --------------------------------------------------------------------- *)
(** ** The idle gesture                                                   *)
(* --------------------------------------------------------------------- *)



(** The callbacks a computation scheduled, in order. *)
Definition scheduled (w w' : World) : list Callback :=
  map timer_cb (new_timers w w').

(** The handle of the last timer of the queue. *)
Definition last_handle (w : World) : option nat :=
  match rev (timers (host w)) with
  | t :: _ => Some (timer_id t)
  | [] => None
  end.
(* --------------------------------------------------------------------- *)
(** ** The eye cycle                                                      *)
(* --------------------------------------------------------------------- *)

(** How long ago the pointer last moved. *)
Definition mouse_idle (w : World) : Q :=
  (now (host w) - lastMouseMoveRef (refs w))%Q.

(** A gaze component is -1, 0 or 1. *)
Definition unit_axis (v : Z) : Prop := v = -1 \/ v = 0 \/ v = 1.

(** Tracking with no wander target, or wandering towards one of the eight
    directions. *)
Definition mode_ok (s : State) : Prop :=
  (eyeMode s = track /\ randomPupil s = None) \/
  (eyeMode s = wander /\ exists d, randomPupil s = Some d /\ In d LOOK_DIRS).

Definition gaze_ok (s : State) : Prop :=
  mode_ok s /\ unit_axis (dir_x (pupilOffset s)) /\ unit_axis (dir_y (pupilOffset s)).

(** The cells other than [eyeMode] and [randomPupil] are those of [s]. *)
Definition same_but_gaze_mode (s s' : State) : Prop :=
  setEyeMode (eyeMode s) (setRandomPupil (randomPupil s) s') = s.


(** With draws in [0,1) the gaze cells are well formed. *)
Definition gaze_SP (s : State) (random : nat -> Q) : Prop :=
  valid_draws random -> gaze_ok s.
(* --------------------------------------------------------------------- *)
(** ** The loops whose handle is always stored                            *)
(* --------------------------------------------------------------------- *)

Inductive Loop := eye_loop | flash_loop | idle_loop.

(** The timeout that carries a loop from one cycle to the next. *)
Definition loop_cb (L : Loop) (cb : Callback) : bool :=
  match L, cb with
  | eye_loop, (CbEyeTrackEnd _ | CbEyeCycle _) => true
  | flash_loop, CbFlashFire => true
  | idle_loop, CbIdleFire => true
  | _, _ => false
  end.

Definition loop_ref (L : Loop) (r : Refs) : option nat :=
  match L with
  | eye_loop => eyeRef r
  | flash_loop => flashRef r
  | idle_loop => idleRef r
  end.

Definition loop_timers (L : Loop) (ts : list Timer) : list Timer :=
  List.filter (fun t => loop_cb L (timer_cb t)) ts.

Definition loop_pending (L : Loop) (w : World) : list Timer :=
  loop_timers L (timers (host w)).

(** While mounted the loop has one timeout pending and its ref holds the
    handle; once unmounted it has none. *)
Definition loop_tracked (L : Loop) (w : World) : Prop :=
  if mounted w
  then exists t, loop_pending L w = [t] /\ loop_ref L (refs w) = Some (timer_id t)
  else loop_pending L w = [].

(** Clearing a handle that may or may not be set. *)
Definition clear_opt (h : option nat) (ts : list Timer) : list Timer :=
  match h with
  | Some id => clear_id id ts
  | None => ts
  end.

(** Nineteen timers into a run, then unmount in the middle of the sweep. *)
Definition swept_away_world : World :=
  world_after 0 cyc_draws (fires 5 19 ++ [EvUnmount]).
(* --------------------------------------------------------------------- *)
(** ** Timelines                                                          *)
(* --------------------------------------------------------------------- *)

(** The clock and an observation after each of the next [k] timers. *)
Fixpoint trace_of {X} (obs : World -> X) (fuel k : nat) (w : World) : list (Q * X) :=
  match k with
  | O => []
  | S k' =>
      match exec (fire_next fuel) w with
      | Some w' => (now (host w'), obs w') :: trace_of obs fuel k' w'
      | None => []
      end
  end.

(** The same observations at the same times, times compared as numbers. *)
Definition same_trace {X} (a b : list (Q * X)) : Prop :=
  Forall2 (fun p q => (fst p == fst q)%Q /\ snd p = snd q) a b.

(** Nothing that is pending in [w] is due within [horizon] ms. *)
Definition quiet_for (horizon : Q) (w : World) : Prop :=
  Forall (fun t => (now (host w) + horizon < timer_due t)%Q) (timers (host w)).


(** An empty queue at clock 0 with the given draws. *)
Definition quiet_world (l : list Q) : World := blank 0 (draws l).

(* ===================================================================== *)
(** * Properties                                                        *)
(* ===================================================================== *)

(* --------------------------------------------------------------------- *)
(** ** Sanity checks of the tables and the comparisons                     *)
(* --------------------------------------------------------------------- *)

Lemma Qlt_bool_iff (a b : Q) : Qlt_bool a b = true <-> (a < b)%Q.
Proof.
  unfold Qlt_bool. rewrite negb_true_iff.
  split; intros H.
  - apply Qnot_le_lt. intros Hle. apply Qle_bool_iff in Hle. congruence.
  - destruct (Qle_bool b a) eqn:E; [|reflexivity].
    apply Qle_bool_iff in E. exfalso. exact (Qlt_not_le _ _ H E).
Qed.

Lemma Qlt_bool_false_iff (a b : Q) : Qlt_bool a b = false <-> (b <= a)%Q.
Proof.
  unfold Qlt_bool. rewrite negb_false_iff. apply Qle_bool_iff.
Qed.

Example LEFT_EYE_spans : LEFT_EYE = [mkSpan 3 4 2; mkSpan 4 4 2].
Proof. reflexivity. Qed.

Example RIGHT_EYE_spans : RIGHT_EYE = [mkSpan 3 7 2; mkSpan 4 7 2].
Proof. reflexivity. Qed.

Example render_initial_tentacles :
  pose_tentacles (render (setWiggleGroups {[1; 2]} initial_state)) =
  [ mkTentacleRect 3 8 3 lit_0_45; mkTentacleRect 4 8 2 lit_0_65;
    mkTentacleRect 8 8 2 lit_0_65; mkTentacleRect 9 8 3 lit_0_45 ].
Proof. vm_compute. reflexivity. Qed.

(* --------------------------------------------------------------------- *)
(** ** Tracked gaze                                                       *)
(* --------------------------------------------------------------------- *)

Section Gaze.




End Gaze.


(** Scenario: displacement (100, -50) from the reference point gives the
    target (1, -1). *)
Example handler_scenario_100_m50 :
  exec (handler (mkMouseEvent 160 92) (Some (mkDOMRect 0 100 120 120)))
       (blank 0 (fun _ => 0%Q))
  = Some (with_st (setPupilOffset (mkDir 1 (-1))) (blank 0 (fun _ => 0%Q))).
Proof. reflexivity. Qed.

(* --------------------------------------------------------------------- *)
(** ** Blink episodes                                                     *)
(* --------------------------------------------------------------------- *)

Section Blink.

Lemma skipn_app_exact {A} (l l' : list A) : skipn (length l) (l ++ l') = l'.
Proof. induction l; simpl; auto. Qed.



(** The literal [0.40] as the double it denotes: on the grid of doubles
    around it, comparing with the double or with 2/5 is the same. *)
Lemma roll_lt_040_double (k : Z) :
  Qlt_bool (k # (2 ^ 54)) double_0_40 = Qlt_bool (k # (2 ^ 54)) lit_0_40.
Proof.
  unfold Qlt_bool, Qle_bool, double_0_40, lit_0_40. cbn [Qnum Qden].
  f_equal.
  destruct (Z.leb_spec (7205759403792794 * Z.pos (2 ^ 54)) (k * Z.pos (2 ^ 54)));
  destruct (Z.leb_spec (40 * Z.pos (2 ^ 54)) (k * 100)); try reflexivity; exfalso.
  - assert (Hp : Z.pos (2 ^ 54) = 18014398509481984) by reflexivity.
    rewrite Hp in *. lia.
  - assert (Hp : Z.pos (2 ^ 54) = 18014398509481984) by reflexivity.
    rewrite Hp in *. lia.
Qed.

End Blink.



(* --------------------------------------------------------------------- *)
(** ** Pose resolution                                                    *)
(* --------------------------------------------------------------------- *)

Section PoseFacts.

Lemma render_closed (s : State) :
  isBlinking s = true -> eyes_drawn_closed (render s) /\ pose_pupils (render s) = [].
Proof.
  intros Hb. unfold eyes_drawn_closed, render, eyesClosed. cbn. rewrite Hb. cbn.
  repeat split. repeat constructor.
Qed.

Lemma render_cross_eyed (s : State) :
  isCrossEyed s = true -> isBlinking s = false ->
  pose_pupils (render s) = [(5, crossEyedY s); (7, crossEyedY s)].
Proof.
  intros Hc Hb. unfold render, eyesClosed, leftP, rightP. cbn.
  now rewrite Hb, Hc.
Qed.

Lemma ends_blink_only_run (fuel : nat) (cb : Callback) (w : World) :
  ends_blink_only cb = true ->
  exists w',
    run_callback fuel cb w = Some (tt, w') /\
    isBlinking (st w') = false /\
    isCrossEyed (st w') = isCrossEyed (st w) /\
    crossEyedY (st w') = crossEyedY (st w).
Proof.
  destruct cb as [| | | | | | | | | | | | |[|]]; cbn; try discriminate; intros _;
    eexists; (split; [reflexivity |]); cbn; auto.
Qed.

End PoseFacts.

(** C5. While the blink flag is set, the pose has both eyes closed and no
    pupils, whatever the override and the gaze are.  The pose is a function
    of the state cells and writes none of them; the override stays stored:
    clearing the blink flag alone, by the setter or by any callback that
    ends a blink without ending a cross-eye episode, leaves the override and
    its height as they were, and the next pose shows the convergent pupils
    if the override is on. *)
Theorem blink_hides_eyes_keeps_override (s : State) :
  isBlinking s = true ->
  eyes_drawn_closed (render s) /\
  pose_pupils (render s) = [] /\
  isCrossEyed (setIsBlinking false s) = isCrossEyed s /\
  crossEyedY (setIsBlinking false s) = crossEyedY s /\
  (isCrossEyed s = true ->
   pose_pupils (render (setIsBlinking false s)) =
     [(5, crossEyedY s); (7, crossEyedY s)]) /\
  (forall fuel cb w,
     st w = s -> ends_blink_only cb = true ->
     exists w',
       run_callback fuel cb w = Some (tt, w') /\
       isBlinking (st w') = false /\
       isCrossEyed (st w') = isCrossEyed s /\
       crossEyedY (st w') = crossEyedY s).
Proof.
  intros Hb.
  destruct (render_closed s Hb) as [Hclosed Hnone].
  split; [exact Hclosed |]. split; [exact Hnone |].
  split; [reflexivity |]. split; [reflexivity |].
  split.
  - intros Hc. exact (render_cross_eyed (setIsBlinking false s) Hc eq_refl).
  - intros fuel cb w <- Hcb. now apply ends_blink_only_run.
Qed.

Lemma blink_hides_eyes_keeps_override_witness :
  pose_pupils (render (setIsCrossEyed true (setIsBlinking true initial_state))) = [] /\
  pose_pupils (render (setIsBlinking false
                         (setIsCrossEyed true (setIsBlinking true initial_state))))
    = [(5, 4); (7, 4)].
Proof.
  pose proof (blink_hides_eyes_keeps_override
                (setIsCrossEyed true (setIsBlinking true initial_state))
                eq_refl) as (_ & Hp & _ & _ & Hc & _).
  split; [exact Hp | exact (Hc eq_refl)].
Defined.

Lemma pupil_axis_offset01 (v : Z) : pupil_axis v = offset01 v.
Proof.
  unfold pupil_axis, offset01.
  destruct (Z.ltb_spec v 0), (Z.ltb_spec 0 v); try reflexivity; lia.
Qed.

(** C9. The offset added to each eye's neutral cell (4,3) / (7,3) is, on
    each axis, 1 if the component of the effective gaze target is positive
    and 0 otherwise; a component of -1 and a component of 0 therefore give
    the same pose, in tracking and in wandering mode. *)
Theorem pupil_offset_two_valued (s : State) :
  let g := effectivePupil s in
  pupilX s = offset01 (dir_x g) /\
  pupilY s = offset01 (dir_y g) /\
  (pupilX s = 0 \/ pupilX s = 1) /\
  (pupilY s = 0 \/ pupilY s = 1) /\
  pose_pupils (render (setIsBlinking false (setIsCrossEyed false s))) =
    [(4 + offset01 (dir_x g), 3 + offset01 (dir_y g));
     (7 + offset01 (dir_x g), 3 + offset01 (dir_y g))] /\
  (forall y,
     render (setEyeMode track (setPupilOffset (mkDir (-1) y) s)) =
     render (setEyeMode track (setPupilOffset (mkDir 0 y) s))) /\
  (forall x,
     render (setEyeMode track (setPupilOffset (mkDir x (-1)) s)) =
     render (setEyeMode track (setPupilOffset (mkDir x 0) s))) /\
  (forall y,
     render (setEyeMode wander (setRandomPupil (Some (mkDir (-1) y)) s)) =
     render (setEyeMode wander (setRandomPupil (Some (mkDir 0 y)) s))) /\
  (forall x,
     render (setEyeMode wander (setRandomPupil (Some (mkDir x (-1))) s)) =
     render (setEyeMode wander (setRandomPupil (Some (mkDir x 0)) s))).
Proof.
  intros g. unfold pupilX, pupilY. fold g.
  rewrite !pupil_axis_offset01.
  split; [reflexivity |]. split; [reflexivity |].
  split; [unfold offset01; destruct (0 <? dir_x g); auto |].
  split; [unfold offset01; destruct (0 <? dir_y g); auto |].
  split.
  { unfold render, eyesClosed, leftP, rightP, pupilX, pupilY. cbn.
    fold g. now rewrite !pupil_axis_offset01. }
  repeat split; intros; reflexivity.
Qed.

(* --------------------------------------------------------------------- *)
(** ** Pointer leave                                                      *)
(* --------------------------------------------------------------------- *)

(** C10. Pointer-leave clears the hover flag and touches nothing else: the
    other eight cells, the refs, the timer queue (so no pending wiggle or
    blink step is cancelled), the clock and the random source are as
    before; with the flag already clear the world is unchanged. *)
Theorem handleMouseLeave_frame (w : World) :
  exists w',
    handleMouseLeave w = Some (tt, w') /\
    step EvMouseLeave w = Some (if mounted w then w' else w) /\
    isHovered (st w') = false /\
    pupilOffset (st w') = pupilOffset (st w) /\
    isBlinking (st w') = isBlinking (st w) /\
    isCrossEyed (st w') = isCrossEyed (st w) /\
    crossEyedY (st w') = crossEyedY (st w) /\
    randomPupil (st w') = randomPupil (st w) /\
    wiggleGroups (st w') = wiggleGroups (st w) /\
    flashRow (st w') = flashRow (st w) /\
    eyeMode (st w') = eyeMode (st w) /\
    refs w' = refs w /\
    host w' = host w /\
    mounted w' = mounted w /\
    (isHovered (st w) = false -> w' = w).
Proof.
  eexists. split; [reflexivity |].
  split. { cbn. destruct (mounted w); reflexivity. }
  repeat (split; [reflexivity |]).
  intros H. destruct w as [[] ? ? ?]. cbn in *. subst. reflexivity.
Qed.

(* --------------------------------------------------------------------- *)
(** ** Invariants of computations                                         *)
(* --------------------------------------------------------------------- *)

Section Preserves.

Context (I : World -> Prop).

Lemma pres_ret {A} (a : A) : preserves I (ret a).
Proof. intros w a' w' H E. inversion E; subst. exact H. Qed.

Lemma pres_bind {A B} (m : M A) (k : A -> M B) :
  preserves I m -> (forall a, preserves I (k a)) -> preserves I (bind m k).
Proof.
  intros Hm Hk w b w' H E. unfold bind in E.
  destruct (m w) as [[a w1] |] eqn:Em; [| discriminate].
  exact (Hk a w1 b w' (Hm w a w1 H Em) E).
Qed.

Lemma pres_out_of_fuel {A} : preserves I (@out_of_fuel A).
Proof. intros w a w' _ E. discriminate. Qed.

(** A computation that always returns and moves the world by [T]. *)
Lemma pres_total {A} (m : M A) (f : World -> A) (T : World -> World) :
  (forall w, m w = Some (f w, T w)) ->
  (forall w, I w -> I (T w)) ->
  preserves I m.
Proof.
  intros Hm HT w a w' H E. rewrite Hm in E. inversion E; subst. now apply HT.
Qed.

Lemma pres_forEach {A} (f : Z -> A -> M unit) (l : list A) :
  (forall i a, In a l -> preserves I (f i a)) ->
  forall i, preserves I (forEach f i l).
Proof.
  induction l as [| a l IH]; intros Hf i; cbn.
  - apply pres_ret.
  - apply pres_bind; [apply Hf; now left | intros _; apply IH].
    intros j b Hb. apply Hf. now right.
Qed.

Lemma pres_draw_indices (fuel count : nat) :
  preserves I Math_random ->
  forall indices, preserves I (draw_indices fuel count indices).
Proof.
  intros Hr. induction fuel as [| fuel IH]; intros indices.
  - unfold draw_indices.
    destruct (size indices <? count)%nat; [apply pres_out_of_fuel | apply pres_ret].
  - change (preserves I
              (if (size indices <? count)%nat
               then bind Math_random (fun r =>
                      draw_indices fuel count (indices ∪ {[ Math_floor (r * 4) ]}))
               else ret indices)).
    destruct (size indices <? count)%nat; [| apply pres_ret].
    apply pres_bind; [exact Hr | intros r; apply IH].
Qed.

End Preserves.

(** Splits a computation into its primitive steps; [side] shows that one
    primitive step keeps the invariant. *)
Ltac pres_prim side :=
  match goal with
  | |- preserves _ (setState ?f) =>
      apply (pres_total _ _ (fun _ => tt) (with_st f)); [reflexivity | side]
  | |- preserves _ (setTimeout ?cb ?d) =>
      eapply (pres_total _ (setTimeout cb d)); [intros; reflexivity | side]
  | |- preserves _ (clearTimeout ?h) =>
      destruct h;
      (eapply (pres_total _ (clearTimeout _)); [intros; reflexivity | side])
  | |- preserves _ ?m =>
      eapply (pres_total _ m); [intros; reflexivity | side]
  end.

Ltac pres_go side :=
  cbv zeta;
  lazymatch goal with
  | |- preserves _ (ret _) => apply pres_ret
  | |- preserves _ out_of_fuel => apply pres_out_of_fuel
  | |- preserves _ (bind _ _) =>
      apply pres_bind; [pres_go side | intros ?; pres_go side]
  | |- preserves _ (forEach _ _ _) =>
      let Hin := fresh "Hin" in
      apply pres_forEach; intros ? ? Hin; cbn in Hin;
      repeat (destruct Hin as [<- | Hin]); try contradiction; pres_go side
  | |- preserves _ (draw_indices _ _ _) =>
      apply pres_draw_indices; pres_go side
  | |- preserves _ (if ?c then _ else _) => destruct c; pres_go side
  | |- preserves _ (match ?x with track => _ | wander => _ end) =>
      destruct x; pres_go side
  | |- preserves _ (match ?x with Some _ => _ | None => _ end) =>
      destruct x; pres_go side
  | |- preserves _ (cycle _) => unfold cycle; pres_go side
  | |- preserves _ blink_schedule => unfold blink_schedule; pres_go side
  | |- preserves _ flash_schedule => unfold flash_schedule; pres_go side
  | |- preserves _ idle_schedule => unfold idle_schedule; pres_go side
  | |- _ => pres_prim side
  end.

Ltac unfold_code :=
  unfold run_callback, eye_track_end, blink_fire, blink_reopen, blink_reclose,
    blink_end, flash_fire, idle_fire, wave_step, cross_eye_blink, cross_eye_end,
    handler, handleMouseEnter, handleMouseLeave, unmount, mount_effects.

(* --------------------------------------------------------------------- *)
(** ** What a callback can add to the timer queue                         *)
(* --------------------------------------------------------------------- *)

Section Effects.

Lemma grew_by_refl L w : grew_by L w w.
Proof. split; [reflexivity |]. exists []. split; [now rewrite app_nil_r | constructor]. Qed.

Lemma grew_by_push L w0 w id due cb :
  In cb L -> grew_by L w0 w ->
  grew_by L w0
    (with_host (fun h => mkHost (timers h ++ [mkTimer id due cb])
                                (S (next_id h)) (now h) (rng h) (rng_ix h)) w).
Proof.
  intros Hin [Hm (added & Ht & Hall)]. split; [exact Hm |].
  exists (added ++ [mkTimer id due cb]). cbn. split.
  - rewrite Ht. now rewrite <- app_assoc.
  - apply Forall_app. split; [exact Hall | repeat constructor; exact Hin].
Qed.

End Effects.

Ltac side_grew :=
  let w := fresh "w" in
  let H := fresh "H" in
  intros w H;
  first [ exact H | apply grew_by_push; [cbn; tauto | exact H] ].

Lemma run_callback_grew (fuel : nat) (cb : Callback) (w0 : World) :
  preserves (grew_by (schedules cb) w0) (run_callback fuel cb).
Proof.
  destruct cb; unfold_code; cbn [schedules]; pres_go side_grew.
Qed.

(* --------------------------------------------------------------------- *)
(** ** The convergence height                                             *)
(* --------------------------------------------------------------------- *)

Ltac side_height :=
  let w := fresh "w" in
  let H := fresh "H" in
  intros w H;
  first [ exact H
        | unfold height_ok; cbn;
          match goal with |- context [if ?c then _ else _] => destruct c end;
          auto ].

Section Height.

Lemma run_callback_height (fuel : nat) (cb : Callback) :
  preserves height_ok (run_callback fuel cb).
Proof. destruct cb; unfold_code; pres_go side_height. Qed.

Lemma fire_next_height (fuel : nat) : preserves height_ok (fire_next fuel).
Proof.
  intros w a w' H E. unfold fire_next in E.
  destruct (pop_earliest (timers (host w))) as [[t rest] |].
  - eapply run_callback_height; [| exact E]. exact H.
  - inversion E; subst. exact H.
Qed.

Lemma exec_preserves (I : World -> Prop) (m : M unit) (w w' : World) :
  preserves I m -> I w -> exec m w = Some w' -> I w'.
Proof.
  intros Hm H E. unfold exec in E.
  destruct (m w) as [[u w1] |] eqn:Em; inversion E; subst.
  exact (Hm w u w' H Em).
Qed.

Lemma step_height (ev : Event) (w w' : World) :
  height_ok w -> step ev w = Some w' -> height_ok w'.
Proof.
  intros H E. destruct ev; unfold step in E.
  - destruct (Qle_bool 0 d); inversion E; subst. exact H.
  - eapply exec_preserves; [apply fire_next_height | exact H | exact E].
  - destruct (mounted w); [| inversion E; subst; exact H].
    eapply exec_preserves; [| exact H | exact E].
    unfold_code; pres_go side_height.
  - destruct (mounted w); [| inversion E; subst; exact H].
    eapply exec_preserves; [| exact H | exact E].
    unfold_code; pres_go side_height.
  - destruct (mounted w); [| inversion E; subst; exact H].
    eapply exec_preserves; [| exact H | exact E].
    unfold_code; pres_go side_height.
  - destruct (mounted w); [| inversion E; subst; exact H].
    eapply exec_preserves; [| exact H | exact E].
    unfold_code; pres_go side_height.
Qed.

Lemma mount_height t0 random w : mount t0 random = Some w -> height_ok w.
Proof.
  intros E. apply (exec_preserves height_ok mount_effects (blank t0 random) w).
  - unfold_code; pres_go side_height.
  - right. reflexivity.
  - exact E.
Qed.

Lemma reachable_height (w : World) : reachable w -> height_ok w.
Proof.
  induction 1 as [t0 random w E | ev w w' _ IH E].
  - exact (mount_height _ _ _ E).
  - exact (step_height _ _ _ IH E).
Qed.

End Height.

Lemma run_reachable (evs : list Event) (w w' : World) :
  reachable w -> run evs w = Some w' -> reachable w'.
Proof.
  revert w. induction evs as [| ev evs IH]; intros w Hw E; cbn in E.
  - inversion E; subst. exact Hw.
  - destruct (step ev w) as [w1 |] eqn:Es; [| discriminate].
    exact (IH w1 (reach_step ev w w1 Hw Es) E).
Defined.

Lemma world_after_reachable t0 random evs :
  (exists w w', mount t0 random = Some w /\ run evs w = Some w') ->
  reachable (world_after t0 random evs).
Proof.
  intros (w & w' & Hm & Hr). unfold world_after. rewrite Hm, Hr.
  exact (run_reachable evs w w' (reach_mount t0 random w Hm) Hr).
Defined.

Lemma cross_eyed_world_reachable : reachable cross_eyed_world.
Proof.
  apply world_after_reachable.
  eexists. eexists. split; vm_compute; reflexivity.
Defined.

(** C6. In every world the component can reach, with the override on and
    the blink flag off, the pupils are drawn at (5, h) and (7, h), where h
    is the stored convergence height and is 3 or 4; the gaze target and the
    mode have no influence. *)
Theorem cross_eyed_pupils_fixed (w : World) :
  reachable w ->
  isCrossEyed (st w) = true ->
  isBlinking (st w) = false ->
  let h := crossEyedY (st w) in
  pose_pupils (render (st w)) = [(5, h); (7, h)] /\
  (h = 3 \/ h = 4) /\
  (forall d rp m,
     pose_pupils (render (setEyeMode m (setRandomPupil rp (setPupilOffset d (st w)))))
       = [(5, h); (7, h)]).
Proof.
  intros Hr Hc Hb h. split; [| split].
  - now apply render_cross_eyed.
  - exact (reachable_height w Hr).
  - intros d rp m. now apply render_cross_eyed.
Qed.

Lemma cross_eyed_pupils_fixed_witness :
  isCrossEyed (st cross_eyed_world) = true /\
  isBlinking (st cross_eyed_world) = false /\
  pose_pupils (render (st cross_eyed_world)) = [(5, 3); (7, 3)].
Proof.
  split; [reflexivity |]. split; [reflexivity |].
  exact (proj1 (cross_eyed_pupils_fixed cross_eyed_world
                  cross_eyed_world_reachable eq_refl eq_refl)).
Defined.

(* --------------------------------------------------------------------- *)
(** ** The autonomous blink loop                                          *)
(* --------------------------------------------------------------------- *)

Section BlinkLoop.

Lemma blink_timers_app (l l' : list Timer) :
  blink_timers (l ++ l') = blink_timers l ++ blink_timers l'.
Proof. unfold blink_timers. apply List.filter_app. Qed.

Lemma pop_earliest_blink (ts rest : list Timer) (t : Timer) :
  pop_earliest ts = Some (t, rest) ->
  length (blink_timers ts) =
    (length (blink_timers rest) + (if is_blink_cb (timer_cb t) then 1 else 0))%nat.
Proof.
  unfold blink_timers.
  revert t rest. induction ts as [| u ts IH]; intros t rest E; cbn in E.
  - discriminate.
  - destruct (pop_earliest ts) as [[m rest'] |] eqn:Ep.
    + specialize (IH m rest' eq_refl).
      destruct (Qle_bool (timer_due u) (timer_due m)); inversion E; subst; clear E.
      * cbn. destruct (is_blink_cb (timer_cb t)); cbn; lia.
      * cbn. cbn in IH.
        destruct (is_blink_cb (timer_cb u)); cbn; rewrite IH; lia.
    + destruct ts; [| cbn in Ep; destruct (pop_earliest ts) as [[? ?] |];
                      [destruct (Qle_bool _ _) |]; discriminate].
      inversion E; subst. cbn. destruct (is_blink_cb (timer_cb t)); reflexivity.
Qed.

Lemma clear_id_blink (id : nat) (ts : list Timer) :
  (length (blink_timers (clear_id id ts)) <= length (blink_timers ts))%nat.
Proof.
  unfold blink_timers, clear_id.
  induction ts as [| t ts IH]; cbn; [lia |].
  destruct (negb (timer_id t =? id)%nat); cbn;
    destruct (is_blink_cb (timer_cb t)); cbn; lia.
Qed.

Lemma schedules_outside_loop (cb cb' : Callback) :
  is_blink_cb cb = false -> In cb' (schedules cb) -> is_blink_cb cb' = false.
Proof.
  destruct cb; cbn; try discriminate; intros _ H;
    repeat (destruct H as [<- | H]; [reflexivity |]); contradiction.
Qed.

Lemma schedules_blink_fire (cb : Callback) :
  In CbBlinkFire (schedules cb) -> cb = CbBlinkEnd.
Proof.
  destruct cb; cbn; intros H;
    repeat (destruct H as [H | H]; [discriminate H || reflexivity |]);
    try contradiction; reflexivity.
Qed.

Lemma grew_by_outside_loop (L : list Callback) (w0 w : World) :
  (forall cb, In cb L -> is_blink_cb cb = false) ->
  grew_by L w0 w ->
  blink_pending w = blink_pending w0 /\ mounted w = mounted w0.
Proof.
  intros HL [Hm (added & Ht & Hall)]. split; [| exact Hm].
  unfold blink_pending. rewrite Ht, blink_timers_app.
  assert (E : blink_timers added = []).
  { clear Ht. induction Hall as [| t l Ht _ IH]; cbn; [reflexivity |].
    now rewrite (HL _ Ht). }
  now rewrite E, app_nil_r.
Qed.

(** Each step of the loop replaces itself by exactly one successor. *)
Lemma run_callback_blink_count (fuel : nat) (cb : Callback) (w w' : World) :
  run_callback fuel cb w = Some (tt, w') ->
  mounted w' = mounted w /\
  length (blink_pending w') =
    (length (blink_pending w) + (if is_blink_cb cb then 1 else 0))%nat.
Proof.
  intros E.
  pose proof (run_callback_grew fuel cb w w tt w' (grew_by_refl _ w) E) as G.
  destruct (is_blink_cb cb) eqn:Hcb.
  - split; [exact (proj1 G) |].
    destruct cb; try discriminate Hcb;
      cbv [run_callback blink_fire blink_reopen blink_reclose blink_end
           blink_schedule bind Math_random setState setTimeout put_blinkRef ret]
        in E;
      repeat match type of E with
             | context [if ?c then _ else _] => destruct c
             end;
      inversion E; subst; unfold blink_pending; cbn [timers host with_host with_st
        with_refs]; rewrite blink_timers_app, length_app; reflexivity.
  - destruct (grew_by_outside_loop (schedules cb) w w') as [Hp Hm].
    + intros cb' Hin. exact (schedules_outside_loop cb cb' Hcb Hin).
    + exact G.
    + split; [exact Hm |]. rewrite Hp. lia.
Qed.

Lemma fire_next_one_in_flight (fuel : nat) (w w' : World) :
  one_in_flight w -> exec (fire_next fuel) w = Some w' -> one_in_flight w'.
Proof.
  intros K E. unfold exec, fire_next in E.
  destruct (pop_earliest (timers (host w))) as [[t rest] |] eqn:Ep.
  - match type of E with
    | context [run_callback fuel (timer_cb t) ?w1] =>
        destruct (run_callback fuel (timer_cb t) w1) as [[[] w2] |] eqn:Er;
        [| discriminate]
    end.
    inversion E; subst; clear E.
    apply run_callback_blink_count in Er. destruct Er as [Hm Hc].
    apply pop_earliest_blink in Ep.
    unfold one_in_flight, blink_pending in *.
    cbn [timers host with_host mounted] in Hm, Hc.
    rewrite Hm, Hc, <- Ep. exact K.
  - inversion E; subst. exact K.
Qed.

Lemma unmount_one_in_flight (w w' : World) :
  one_in_flight w -> exec unmount w = Some w' -> one_in_flight w'.
Proof.
  intros [K _] E. unfold exec, unmount, bind, getRefs, clearTimeout in E.
  assert (H : mounted w' = false /\
              (length (blink_pending w') <= length (blink_pending w))%nat).
  { destruct (eyeRef (refs w)), (blinkRef (refs w)), (flashRef (refs w)),
             (idleRef (refs w));
      inversion E; subst; clear E; (split; [reflexivity |]);
      unfold blink_pending; cbn;
      repeat (etransitivity; [apply clear_id_blink |]); reflexivity. }
  destruct H as [Hm Hl]. split; [lia |]. rewrite Hm. discriminate.
Qed.

Lemma quiet_one_in_flight (L : list Callback) (m : M unit) (w w' : World) :
  (forall cb, In cb L -> is_blink_cb cb = false) ->
  preserves (grew_by L w) m ->
  one_in_flight w -> exec m w = Some w' -> one_in_flight w'.
Proof.
  intros HL Hm K E.
  pose proof (exec_preserves _ m w w' Hm (grew_by_refl L w) E) as G.
  destruct (grew_by_outside_loop L w w' HL G) as [Hp Hmt].
  unfold one_in_flight. now rewrite Hp, Hmt.
Qed.

Lemma step_one_in_flight (ev : Event) (w w' : World) :
  one_in_flight w -> step ev w = Some w' -> one_in_flight w'.
Proof.
  intros K E. destruct ev; unfold step in E.
  - destruct (Qle_bool 0 d); inversion E; subst. exact K.
  - exact (fire_next_one_in_flight fuel w w' K E).
  - destruct (mounted w) eqn:Hm; [| inversion E; subst; exact K].
    apply (quiet_one_in_flight [] (handler e svg) w w'); auto.
    + intros cb [].
    + unfold_code; pres_go side_grew.
  - destruct (mounted w) eqn:Hm; [| inversion E; subst; exact K].
    apply (quiet_one_in_flight
             [CbSetIsBlinking false; CbSetWiggleGroups {[1; 2]};
              CbSetWiggleGroups {[0; 1; 2; 3]}; CbSetWiggleGroups {[0; 3]};
              CbSetWiggleGroups ∅] handleMouseEnter w w'); auto.
    + intros cb H. cbn in H.
      repeat (destruct H as [<- | H]; [reflexivity |]). contradiction.
    + unfold_code; pres_go side_grew.
  - destruct (mounted w) eqn:Hm; [| inversion E; subst; exact K].
    apply (quiet_one_in_flight [] handleMouseLeave w w'); auto.
    + intros cb [].
    + unfold_code; pres_go side_grew.
  - destruct (mounted w) eqn:Hm; [| inversion E; subst; exact K].
    exact (unmount_one_in_flight w w' K E).
Qed.

Lemma mount_one_in_flight t0 random w :
  mount t0 random = Some w -> one_in_flight w.
Proof.
  intros E. cbv [mount mount_effects] in E. cbn in E.
  inversion E; subst. split; [cbn; lia | reflexivity].
Qed.

Lemma reachable_one_in_flight (w : World) : reachable w -> one_in_flight w.
Proof.
  induction 1 as [t0 random w E | ev w w' _ IH E].
  - exact (mount_one_in_flight _ _ _ E).
  - exact (step_one_in_flight _ _ _ IH E).
Qed.

End BlinkLoop.

Lemma mid_blink_world_reachable : reachable mid_blink_world.
Proof.
  apply world_after_reachable.
  eexists. eexists. split; vm_compute; reflexivity.
Defined.

(** C8. In every reachable world at most one timeout of the autonomous
    blink loop is pending (exactly one while mounted): the delay of the next
    cycle and the steps of an episode never coexist.  The delay of the next
    cycle is only ever scheduled by the closing step of an episode, which
    has opened the eyes when it does so. *)
Theorem blink_loop_single_episode (w : World) :
  reachable w ->
  (length (blink_pending w) <= 1)%nat /\
  (mounted w = true -> length (blink_pending w) = 1%nat) /\
  (forall fuel cb w1 w2 t,
     run_callback fuel cb w1 = Some (tt, w2) ->
     In t (new_timers w1 w2) ->
     timer_cb t = CbBlinkFire ->
     cb = CbBlinkEnd /\ isBlinking (st w2) = false).
Proof.
  intros Hr. destruct (reachable_one_in_flight w Hr) as [K1 K2].
  split; [exact K1 |]. split; [exact K2 |].
  intros fuel cb w1 w2 t E Hin Hcb.
  pose proof (run_callback_grew fuel cb w1 w1 tt w2 (grew_by_refl _ w1) E)
    as [_ (added & Ht & Hall)].
  unfold new_timers in Hin. rewrite Ht, skipn_app_exact in Hin.
  rewrite List.Forall_forall in Hall. specialize (Hall t Hin). rewrite Hcb in Hall.
  apply schedules_blink_fire in Hall. subst cb. split; [reflexivity |].
  cbv [run_callback blink_end blink_schedule bind Math_random setState setTimeout
       put_blinkRef ret] in E.
  inversion E; subst. reflexivity.
Qed.

Lemma blink_loop_single_episode_witness :
  map timer_cb (blink_pending mid_blink_world) = [CbBlinkReopen] /\
  length (blink_pending mid_blink_world) = 1%nat.
Proof.
  split; [reflexivity |].
  exact (proj1 (proj2 (blink_loop_single_episode mid_blink_world
                         mid_blink_world_reachable)) eq_refl).
Defined.

(* --------------------------------------------------------------------- *)
(** ** Pointer enter                                                      *)
(* --------------------------------------------------------------------- *)

Section Queue.

Lemma pop_earliest_in (ts rest : list Timer) (m : Timer) :
  pop_earliest ts = Some (m, rest) -> In m ts.
Proof.
  revert m rest. induction ts as [| u ts IH]; intros m rest E; cbn in E.
  - discriminate.
  - destruct (pop_earliest ts) as [[m' rest'] |].
    + destruct (Qle_bool (timer_due u) (timer_due m')); inversion E; subst.
      * now left.
      * right. exact (IH m rest' eq_refl).
    + inversion E; subst. now left.
Qed.

(** The timer strictly before everything created earlier and not after
    anything created later is the one that runs next. *)
Lemma pop_earliest_at (l1 l2 : list Timer) (m : Timer) :
  Forall (fun t => (timer_due m < timer_due t)%Q) l1 ->
  Forall (fun t => (timer_due m <= timer_due t)%Q) l2 ->
  pop_earliest (l1 ++ m :: l2) = Some (m, l1 ++ l2).
Proof.
  intros H1 H2. induction H1 as [| u l1 Hu _ IH]; cbn.
  - destruct (pop_earliest l2) as [[m' rest'] |] eqn:Ep.
    + apply pop_earliest_in in Ep.
      rewrite List.Forall_forall in H2. specialize (H2 m' Ep).
      apply Qle_bool_iff in H2. now rewrite H2.
    + destruct l2 as [| v l2]; [reflexivity |].
      cbn in Ep. destruct (pop_earliest l2) as [[? ?] |];
        [destruct (Qle_bool _ _) |]; discriminate.
  - rewrite IH.
    destruct (Qle_bool (timer_due u) (timer_due m)) eqn:E; [| reflexivity].
    apply Qle_bool_iff in E. exfalso. exact (Qlt_not_le _ _ Hu E).
Qed.

Lemma pop_earliest_mid (ts a l2 : list Timer) (m : Timer) :
  Forall (fun t => (timer_due m < timer_due t)%Q) ts ->
  Forall (fun t => (timer_due m < timer_due t)%Q) a ->
  Forall (fun t => (timer_due m <= timer_due t)%Q) l2 ->
  pop_earliest (ts ++ a ++ m :: l2) = Some (m, ts ++ a ++ l2).
Proof.
  intros Hts Ha H2. rewrite !app_assoc. apply pop_earliest_at; [| exact H2].
  apply Forall_app. now split.
Qed.

End Queue.

Section Enter.

Lemma fire_trace_step (fuel k : nat) (w w' : World) :
  exec (fire_next fuel) w = Some w' ->
  fire_trace fuel (S k) w = (now (host w'), observe w') :: fire_trace fuel k w'.
Proof. intros E. cbn [fire_trace]. now rewrite E. Qed.

(** Firing when the next timer is known and still in the future. *)
Lemma fire_next_mid fuel s r ts a m l2 nid n rg ix mt :
  Forall (fun t => (timer_due m < timer_due t)%Q) ts ->
  Forall (fun t => (timer_due m < timer_due t)%Q) a ->
  Forall (fun t => (timer_due m <= timer_due t)%Q) l2 ->
  (n < timer_due m)%Q ->
  exec (fire_next fuel) (mkWorld s r (mkHost (ts ++ a ++ m :: l2) nid n rg ix) mt) =
  exec (run_callback fuel (timer_cb m))
       (mkWorld s r (mkHost (ts ++ a ++ l2) nid (timer_due m) rg ix) mt).
Proof.
  intros H1 Ha H2 Hn. unfold exec, fire_next. cbn [timers host now].
  rewrite (pop_earliest_mid ts a l2 m H1 Ha H2).
  apply Qlt_bool_iff in Hn. unfold Qlt_bool in Hn. apply negb_true_iff in Hn.
  rewrite Hn. reflexivity.
Qed.

End Enter.

Ltac later_than Hq :=
  first [ eapply List.Forall_impl; [| exact Hq]; cbn; intros; lra
        | repeat constructor; cbn; lra ].

Ltac normal_world :=
  cbv [with_host with_st host st refs mounted timers next_id now rng rng_ix].

(** One step of the trace: the timer after the prefix [a] of the timers
    created by the handler runs next. *)
Ltac fire_step Hq ts a l2 :=
  erewrite fire_trace_step;
  [| etransitivity;
     [ apply (fire_next_mid _ _ _ ts a _ l2); later_than Hq
     | cbn; reflexivity ] ];
  normal_world.

(** C7. Pointer-enter sets the hover flag and closes the eyes at once and
    schedules five timeouts: eyes open at +120 ms, wiggle set {1,2} at +50,
    {0,1,2,3} at +150, {0,3} at +300, {} at +450.  Each of them writes its
    value over whatever is stored.  When nothing else is due in those
    450 ms, the next five timers to run are these, in the order +50, +120,
    +150, +300, +450, and the observed hover flag, blink flag and wiggle set
    after each are as listed. *)
Theorem handleMouseEnter_script (w : World) (fuel : nat) :
  let n := now (host w) in
  exists w0,
    handleMouseEnter w = Some (tt, w0) /\
    observe w0 = (true, true, wiggleGroups (st w)) /\
    map (fun t => (timer_cb t, timer_due t)) (new_timers w w0) =
      [ (CbSetIsBlinking false, (n + 120)%Q);
        (CbSetWiggleGroups {[1; 2]}, (n + 50)%Q);
        (CbSetWiggleGroups {[0; 1; 2; 3]}, (n + 150)%Q);
        (CbSetWiggleGroups {[0; 3]}, (n + 300)%Q);
        (CbSetWiggleGroups ∅, (n + 450)%Q) ] /\
    (forall fuel' g w',
       run_callback fuel' (CbSetWiggleGroups g) w' =
         Some (tt, with_st (setWiggleGroups g) w')) /\
    (forall fuel' b w',
       run_callback fuel' (CbSetIsBlinking b) w' =
         Some (tt, with_st (setIsBlinking b) w')) /\
    (Forall (fun t => (n + 450 < timer_due t)%Q) (timers (host w)) ->
     fire_trace fuel 5 w0 =
       [ ((n + 50)%Q,  (true, true,  {[1; 2]}));
         ((n + 120)%Q, (true, false, {[1; 2]}));
         ((n + 150)%Q, (true, false, {[0; 1; 2; 3]}));
         ((n + 300)%Q, (true, false, {[0; 3]}));
         ((n + 450)%Q, (true, false, ∅)) ]).
Proof.
  intros n. destruct w as [s r [ts nid t0 rg ix] mt]. cbn in n. subst n.
  eexists. split; [reflexivity |].
  split; [reflexivity |].
  split.
  { unfold new_timers. normal_world. rewrite <- !List.app_assoc.
    rewrite skipn_app_exact. reflexivity. }
  split; [reflexivity |]. split; [reflexivity |].
  cbn [timers host]. intros Hq.
  normal_world. rewrite <- !List.app_assoc. cbn [app].
  fire_step Hq ts [mkTimer nid (t0 + 120) (CbSetIsBlinking false)]
            [mkTimer (S (S nid)) (t0 + 150) (CbSetWiggleGroups {[0; 1; 2; 3]});
             mkTimer (S (S (S nid))) (t0 + 300) (CbSetWiggleGroups {[0; 3]});
             mkTimer (S (S (S (S nid)))) (t0 + 450) (CbSetWiggleGroups ∅)].
  fire_step Hq ts (@nil Timer)
            [mkTimer (S (S nid)) (t0 + 150) (CbSetWiggleGroups {[0; 1; 2; 3]});
             mkTimer (S (S (S nid))) (t0 + 300) (CbSetWiggleGroups {[0; 3]});
             mkTimer (S (S (S (S nid)))) (t0 + 450) (CbSetWiggleGroups ∅)].
  fire_step Hq ts (@nil Timer)
            [mkTimer (S (S (S nid))) (t0 + 300) (CbSetWiggleGroups {[0; 3]});
             mkTimer (S (S (S (S nid)))) (t0 + 450) (CbSetWiggleGroups ∅)].
  fire_step Hq ts (@nil Timer)
            [mkTimer (S (S (S (S nid)))) (t0 + 450) (CbSetWiggleGroups ∅)].
  fire_step Hq ts (@nil Timer) (@nil Timer).
  reflexivity.
Qed.

Lemma handleMouseEnter_script_witness :
  fire_trace 0 5 (world_after 0 (draws []) [EvMouseEnter]) =
    [ ((0 + 50)%Q,  (true, true,  {[1; 2]}));
      ((0 + 120)%Q, (true, false, {[1; 2]}));
      ((0 + 150)%Q, (true, false, {[0; 1; 2; 3]}));
      ((0 + 300)%Q, (true, false, {[0; 3]}));
      ((0 + 450)%Q, (true, false, ∅)) ].
Proof.
  assert (Hq : Forall (fun t => (now (host fresh_world) + 450 < timer_due t)%Q)
                      (timers (host fresh_world))).
  { repeat constructor. }
  destruct (handleMouseEnter_script fresh_world 0%nat)
    as (w0 & Hrun & _ & _ & _ & _ & Htr).
  vm_compute in Hrun. inversion Hrun; subst w0. exact (Htr Hq).
Defined.

(* --------------------------------------------------------------------- *)
(** ** Wander direction                                                   *)
(* --------------------------------------------------------------------- *)

Section StaleCapture.

Lemma stale_capture_push (w : World) (id : nat) (due : Q) (cb : Callback) :
  captures_first_render cb -> stale_capture w ->
  stale_capture
    (with_host (fun h => mkHost (timers h ++ [mkTimer id due cb])
                                (S (next_id h)) (now h) (rng h) (rng_ix h)) w).
Proof.
  intros Hcb H. unfold stale_capture. cbn. apply Forall_app. split; [exact H |].
  repeat constructor. exact Hcb.
Qed.

Lemma stale_capture_clear (w : World) (id : nat) :
  stale_capture w -> stale_capture (with_host (with_timers (clear_id id)) w).
Proof.
  unfold stale_capture. cbn. intros H. rewrite List.Forall_forall in *.
  intros t Ht. apply List.filter_In in Ht. apply H. tauto.
Qed.

Lemma pop_earliest_Forall (P : Timer -> Prop) (ts rest : list Timer) (t : Timer) :
  Forall P ts -> pop_earliest ts = Some (t, rest) -> P t /\ Forall P rest.
Proof.
  intros H. revert t rest. induction H as [| u ts Hu Hts IH]; intros t rest E; cbn in E.
  - discriminate.
  - destruct (pop_earliest ts) as [[m rest'] |].
    + destruct (IH m rest' eq_refl) as [Hm Hr].
      destruct (Qle_bool (timer_due u) (timer_due m)); inversion E; subst.
      * split; [exact Hu | exact Hts].
      * split; [exact Hm | constructor; assumption].
    + inversion E; subst. split; [exact Hu | constructor].
Qed.

End StaleCapture.

Ltac side_stale :=
  let w := fresh "w" in
  let H := fresh "H" in
  intros w H;
  first [ exact H
        | apply stale_capture_push; [cbn; auto | exact H]
        | apply stale_capture_clear; exact H ].

Lemma run_callback_stale (fuel : nat) (cb : Callback) :
  captures_first_render cb -> preserves stale_capture (run_callback fuel cb).
Proof. intros Hcb. destruct cb; unfold_code; pres_go side_stale. Qed.

Lemma step_stale (ev : Event) (w w' : World) :
  stale_capture w -> step ev w = Some w' -> stale_capture w'.
Proof.
  intros H E. destruct ev; unfold step in E.
  - destruct (Qle_bool 0 d); inversion E; subst. exact H.
  - unfold exec, fire_next in E.
    destruct (pop_earliest (timers (host w))) as [[t rest] |] eqn:Ep.
    + destruct (pop_earliest_Forall _ _ _ _ H Ep) as [Ht Hrest].
      match type of E with
      | context [run_callback fuel (timer_cb t) ?w1] =>
          destruct (run_callback fuel (timer_cb t) w1) as [[[] w2] |] eqn:Er;
          [| discriminate]
      end.
      inversion E; subst.
      eapply (run_callback_stale fuel (timer_cb t) Ht); [| exact Er]. exact Hrest.
    + inversion E; subst. exact H.
  - destruct (mounted w); [| inversion E; subst; exact H].
    eapply exec_preserves; [| exact H | exact E]. unfold_code; pres_go side_stale.
  - destruct (mounted w); [| inversion E; subst; exact H].
    eapply exec_preserves; [| exact H | exact E]. unfold_code; pres_go side_stale.
  - destruct (mounted w); [| inversion E; subst; exact H].
    eapply exec_preserves; [| exact H | exact E]. unfold_code; pres_go side_stale.
  - destruct (mounted w); [| inversion E; subst; exact H].
    eapply exec_preserves; [| exact H | exact E]. unfold_code; pres_go side_stale.
Qed.

(** In every reachable world the eye cycle still holds the first render's
    [pupilOffset]: the direction it excludes is (0,0), never the tracked
    one. *)
Lemma reachable_stale_capture (w : World) : reachable w -> stale_capture w.
Proof.
  induction 1 as [t0 random w E | ev w w' _ IH E].
  - cbv [mount mount_effects] in E. cbn in E. inversion E; subst.
    repeat constructor.
  - exact (step_stale _ _ _ IH E).
Qed.

(** [cycle] is defined in an effect with an empty dependency list, so the
    [pupilOffset] it reads is the one of the first render, (0,0), whatever
    the pointer has done since: the filter removes nothing. *)
Lemma away_dirs_of_first_render :
  away_dirs (sign_axis (dir_x (pupilOffset initial_state)))
            (sign_axis (dir_y (pupilOffset initial_state))) = LOOK_DIRS.
Proof. reflexivity. Qed.

(** The direction the filter was given is never chosen. *)
Lemma away_dirs_excludes (mouseX mouseY : Z) (i : Z) (d : Dir) :
  js_index (away_dirs mouseX mouseY) i = Some d -> d <> mkDir mouseX mouseY.
Proof.
  unfold js_index. destruct (i <? 0); [discriminate |].
  intros H. apply nth_error_In in H. unfold away_dirs in H.
  apply List.filter_In in H. destruct H as [_ H]. intros ->. cbn in H.
  now rewrite !Z.eqb_refl in H.
Qed.

(** C4 at a concrete run: the gaze controller switches to wandering and the
    direction it picks, (1,-1), is the tracked direction.  This is not
    peculiar to the run: in every reachable world the eye cycle excludes the
    direction of the first render's offset. *)
Theorem wander_dir_equals_tracked_dir :
  let w := world_after 0 wander_draws wander_events in
  reachable w /\
  eyeMode (st w) = wander /\
  tracked_dir w = mkDir 1 (-1) /\
  randomPupil (st w) = Some (tracked_dir w) /\
  (forall w', reachable w' -> stale_capture w').
Proof.
  split.
  - apply world_after_reachable.
    eexists. eexists. split; vm_compute; reflexivity.
  - repeat split. exact reachable_stale_capture.
Qed.

(* --------------------------------------------------------------------- *)
(** ** Teardown                                                           *)
(* --------------------------------------------------------------------- *)

(** C1 at concrete runs.  After unmount the timeouts of pointer-enter are
    still pending and the next one writes the wiggle set; an episode of the
    blink loop that was under way at unmount runs to its end, writes the
    blink flag and starts the next cycle. *)
Theorem timers_write_after_unmount :
  reachable torn_down_world /\
  mounted torn_down_world = false /\
  length (timers (host torn_down_world)) = 5%nat /\
  wiggleGroups (st torn_down_world) = ∅ /\
  (exists w', step (EvFire 0) torn_down_world = Some w' /\
              wiggleGroups (st w') = {[1; 2]}) /\
  reachable torn_down_mid_blink /\
  mounted torn_down_mid_blink = false /\
  isBlinking (st torn_down_mid_blink) = true /\
  (exists w', run [EvFire 0; EvFire 0; EvFire 0] torn_down_mid_blink = Some w' /\
              isBlinking (st w') = false /\
              map timer_cb (timers (host w')) = [CbBlinkFire]).
Proof.
  split.
  { apply world_after_reachable. eexists. eexists. split; vm_compute; reflexivity. }
  split; [reflexivity |]. split; [reflexivity |]. split; [reflexivity |].
  split.
  { eexists. split; [vm_compute; reflexivity | reflexivity]. }
  split.
  { apply world_after_reachable. eexists. eexists. split; vm_compute; reflexivity. }
  split; [reflexivity |]. split; [reflexivity |].
  eexists. split; [vm_compute; reflexivity |]. split; reflexivity.
Qed.

(* --------------------------------------------------------------------- *)
(** ** mergeSpans                                                         *)
(* --------------------------------------------------------------------- *)

Section Spans.

Lemma row_spans_covers (cols : list Z) :
  forall r start_ end_ r' c,
    start_ <= end_ ->
    (exists s, In s (row_spans r start_ end_ cols) /\ covers s r' c) <->
    r' = r /\ (start_ <= c <= end_ \/ In c cols).
Proof.
  unfold covers.
  induction cols as [| c0 rest IH]; intros r start_ end_ r' c Hle; cbn [row_spans].
  - split.
    + intros (s & [<- | []] & Hr & Hc). cbn in *. split; [congruence | left; lia].
    + intros [-> [Hc | []]]. eexists. split; [left; reflexivity |]. cbn. lia.
  - destruct (Z.eqb_spec c0 (end_ + 1)) as [-> | Hne].
    + rewrite IH by lia. cbn [In]. intuition lia.
    + split.
      * intros (s & [<- | Hin] & Hr & Hc).
        { cbn in *. split; [congruence | left; lia]. }
        { destruct (proj1 (IH r c0 c0 r' c (Z.le_refl _))) as [-> H];
            [exists s; auto |].
          split; [reflexivity |]. cbn [In].
          destruct H as [H | H]; [right; left; lia | right; right; exact H]. }
      * intros [-> [Hc | [<- | Hin]]].
        { eexists. split; [left; reflexivity |]. cbn. lia. }
        { destruct (proj2 (IH r c0 c0 r c0 (Z.le_refl _))) as (s & Hs & Hcov).
          - split; [reflexivity | left; lia].
          - exists s. split; [right; exact Hs | exact Hcov]. }
        { destruct (proj2 (IH r c0 c0 r c (Z.le_refl _))) as (s & Hs & Hcov).
          - split; [reflexivity | right; exact Hin].
          - exists s. split; [right; exact Hs | exact Hcov]. }
Qed.

Lemma sort_insert_In (x c : Z) (l : list Z) :
  In c (sort_insert x l) <-> c = x \/ In c l.
Proof.
  induction l as [| y l IH]; cbn.
  - intuition.
  - destruct (x <=? y); cbn; [intuition | rewrite IH; intuition].
Qed.

Lemma sort_cols_In (c : Z) (l : list Z) : In c (sort_cols l) <-> In c l.
Proof.
  unfold sort_cols. induction l as [| y l IH]; cbn; [tauto |].
  rewrite sort_insert_In, IH. intuition.
Qed.

(** Membership in the row map, as a relation between a row and a column. *)
Lemma byRow_push_has (r c r' c' : Z) (m : list (Z * list Z)) :
  (exists cols, In (r', cols) (byRow_push r c m) /\ In c' cols) <->
  (r' = r /\ c' = c) \/ (exists cols, In (r', cols) m /\ In c' cols).
Proof.
  induction m as [| [r0 cols0] m IH]; cbn [byRow_push].
  - split.
    + intros (cols & [E | []] & Hc). inversion E; subst.
      destruct Hc as [<- | []]. now left.
    + intros [[-> ->] | (cols & [] & _)]. exists [c]. cbn. auto.
  - destruct (Z.eqb_spec r r0) as [-> | Hne].
    + split.
      * intros (cols & [E | Hin] & Hc).
        { inversion E; subst. apply in_app_or in Hc. destruct Hc as [Hc | [<- | []]].
          - right. exists cols0. cbn. auto.
          - now left. }
        { right. exists cols. cbn. auto. }
      * intros [[-> ->] | (cols & [E | Hin] & Hc)].
        { exists (cols0 ++ [c]). split; [now left | apply in_or_app; cbn; auto]. }
        { inversion E; subst. exists (cols ++ [c]).
          split; [now left | apply in_or_app; auto]. }
        { exists cols. split; [now right | exact Hc]. }
    + split.
      * intros (cols & [E | Hin] & Hc).
        { inversion E; subst. right. exists cols. cbn. auto. }
        { destruct (proj1 IH) as [H | (cols' & H1 & H2)]; [exists cols; auto | now left |].
          right. exists cols'. cbn. auto. }
      * intros [H | (cols & [E | Hin] & Hc)].
        { destruct (proj2 IH (or_introl H)) as (cols & H1 & H2).
          exists cols. split; [now right | exact H2]. }
        { inversion E; subst. exists cols. split; [now left | exact Hc]. }
        { destruct (proj2 IH) as (cols' & H1 & H2).
          - right. exists cols. auto.
          - exists cols'. split; [now right | exact H2]. }
Qed.


End Spans.

Section Seams.

Lemma sort_insert_sorted (x : Z) (l : list Z) :
  StronglySorted Z.lt l -> ~ In x l -> StronglySorted Z.lt (sort_insert x l).
Proof.
  induction 1 as [| y l Hl IH Hy]; intros Hx; cbn.
  - repeat constructor.
  - destruct (Z.leb_spec x y).
    + assert (x < y) by (cbn in Hx; lia).
      constructor; [constructor; assumption |].
      constructor; [assumption |].
      eapply List.Forall_impl; [| exact Hy]. cbn. intros; lia.
    + constructor; [apply IH; cbn in Hx; tauto |].
      apply List.Forall_forall. intros c Hc. apply sort_insert_In in Hc.
      destruct Hc as [-> | Hc]; [lia |].
      rewrite List.Forall_forall in Hy. now apply Hy.
Qed.

Lemma sort_cols_sorted (l : list Z) : List.NoDup l -> StronglySorted Z.lt (sort_cols l).
Proof.
  unfold sort_cols. induction 1 as [| x l Hx _ IH]; cbn; [constructor |].
  apply sort_insert_sorted; [exact IH |].
  intros H. apply Hx. exact (proj1 (sort_cols_In x l) H).
Qed.

Lemma row_spans_shape (cols : list Z) :
  forall r start_ end_,
    start_ <= end_ ->
    StronglySorted Z.lt cols ->
    Forall (fun c => end_ < c) cols ->
    Forall (fun s => span_r s = r /\ start_ <= span_c s /\ 1 <= span_w s)
           (row_spans r start_ end_ cols) /\
    ForallOrdPairs apart (row_spans r start_ end_ cols).
Proof.
  induction cols as [| c0 rest IH]; intros r start_ end_ Hle Hs Hlt; cbn [row_spans].
  - split; [repeat constructor; cbn; lia | repeat constructor].
  - inversion Hs as [| ? ? Hs' Hc0]; subst. inversion Hlt as [| ? ? Hc Hrest]; subst.
    assert (Hrest' : Forall (fun c => c0 < c) rest) by exact Hc0.
    destruct (Z.eqb_spec c0 (end_ + 1)) as [-> | Hne].
    + apply IH; [lia | exact Hs' | exact Hrest'].
    + destruct (IH r c0 c0 (Z.le_refl _) Hs' Hrest') as [Hall Hpairs].
      split.
      * constructor; [cbn; lia |].
        eapply List.Forall_impl; [| exact Hall]. cbn. intros s (? & ? & ?).
        repeat split; try assumption; lia.
      * constructor; [| exact Hpairs].
        eapply List.Forall_impl; [| exact Hall]. intros s (_ & Hs0 & _) _. cbn. lia.
Qed.

Lemma byRow_push_keys (r c : Z) (m : list (Z * list Z)) :
  List.NoDup (map fst m) ->
  List.NoDup (map fst (byRow_push r c m)) /\
  (forall k, In k (map fst (byRow_push r c m)) <-> k = r \/ In k (map fst m)).
Proof.
  induction m as [| [r0 cols0] m IH]; cbn [byRow_push map fst]; intros Hnd.
  - split; [repeat constructor; intros [] | cbn; intuition].
  - inversion Hnd as [| ? ? Hr0 Hm]; subst.
    destruct (Z.eqb_spec r r0) as [-> | Hne]; cbn [map fst].
    + split; [exact Hnd | cbn; intuition].
    + destruct (IH Hm) as [Hnd' Hk]. split.
      * constructor; [| exact Hnd']. rewrite Hk. intros [-> | H]; [congruence | tauto].
      * intros k. cbn [In]. rewrite Hk. intuition.
Qed.

Lemma byRow_keys (pixels : list (Z * Z)) : List.NoDup (map fst (byRow pixels)).
Proof.
  unfold byRow.
  assert (G : forall m, List.NoDup (map fst m) ->
                        List.NoDup (map fst (fold_left
                                         (fun m p => byRow_push (fst p) (snd p) m)
                                         pixels m))).
  { induction pixels as [| p pixels IH]; intros m Hm; cbn [fold_left]; [exact Hm |].
    apply IH. now apply byRow_push_keys. }
  apply G. constructor.
Qed.

Lemma NoDup_snoc {A} (l : list A) (c : A) :
  List.NoDup l -> ~ In c l -> List.NoDup (l ++ [c]).
Proof.
  induction 1 as [| x l Hx _ IH]; intros Hc; cbn.
  - repeat constructor. intros [].
  - constructor.
    + intros H. apply in_app_or in H. cbn in H, Hc. intuition.
    + apply IH. cbn in Hc. tauto.
Qed.

(** The columns collected for a row repeat nothing when the pixels do not. *)
Lemma byRow_push_cols (r c : Z) (m : list (Z * list Z)) :
  (forall cols, In (r, cols) m -> ~ In c cols) ->
  Forall (fun rc => List.NoDup (snd rc)) m ->
  Forall (fun rc => List.NoDup (snd rc)) (byRow_push r c m).
Proof.
  induction m as [| [r0 cols0] m IH]; cbn [byRow_push]; intros Hfresh Hall.
  - repeat constructor. intros [].
  - inversion Hall as [| ? ? H0 Hm]; subst. cbn [snd] in H0.
    destruct (Z.eqb_spec r r0) as [-> | Hne].
    + constructor; [| exact Hm]. cbn [snd].
      apply NoDup_snoc; [exact H0 |]. exact (Hfresh cols0 (or_introl eq_refl)).
    + constructor; [exact H0 |]. apply IH; [| exact Hm].
      intros cols Hin. apply Hfresh. now right.
Qed.

Lemma byRow_cols (pixels : list (Z * Z)) :
  List.NoDup pixels -> Forall (fun rc => List.NoDup (snd rc)) (byRow pixels).
Proof.
  unfold byRow. intros Hnd.
  assert (G : forall m,
             Forall (fun rc => List.NoDup (snd rc)) m ->
             (forall r c cols, In (r, c) pixels -> In (r, cols) m -> ~ In c cols) ->
             Forall (fun rc => List.NoDup (snd rc))
                    (fold_left (fun m p => byRow_push (fst p) (snd p) m) pixels m)).
  { induction Hnd as [| [r0 c0] pixels Hp _ IH]; intros m Hm Hfresh; cbn [fold_left].
    - exact Hm.
    - cbn [fst snd]. apply IH.
      + apply byRow_push_cols; [| exact Hm].
        intros cols Hin. exact (Hfresh r0 c0 cols (or_introl eq_refl) Hin).
      + intros r c cols Hin Hm' Hc.
        destruct (proj1 (byRow_push_has r0 c0 r c m)) as [[-> ->] | (cols' & H1 & H2)].
        * exists cols. auto.
        * exact (Hp Hin).
        * exact (Hfresh r c cols' (or_intror Hin) H1 H2). }
  apply G; [constructor | intros r c cols _ []].
Qed.

Lemma ForallOrdPairs_app {A} (P : A -> A -> Prop) (l1 l2 : list A) :
  ForallOrdPairs P l1 -> ForallOrdPairs P l2 ->
  (forall a b, In a l1 -> In b l2 -> P a b) ->
  ForallOrdPairs P (l1 ++ l2).
Proof.
  induction 1 as [| a l1 Ha _ IH]; intros H2 Hx; cbn; [exact H2 |].
  constructor.
  - apply Forall_app. split; [exact Ha |].
    apply List.Forall_forall. intros b Hb. apply Hx; [now left | exact Hb].
  - apply IH; [exact H2 |]. intros a' b Ha' Hb. apply Hx; [now right | exact Hb].
Qed.

End Seams.

(** X2. Every span is at least one cell wide, and when no pixel is listed
    twice the spans leave no seam to merge: of two spans in the same row,
    the later one starts at least one free cell to the right of where the
    earlier one ends. *)
Theorem mergeSpans_no_seams (pixels : list (Z * Z)) :
  List.NoDup pixels ->
  Forall (fun s => 1 <= span_w s) (mergeSpans pixels) /\
  ForallOrdPairs apart (mergeSpans pixels).
Proof.
  intros Hnd. unfold mergeSpans.
  pose proof (byRow_keys pixels) as Hkeys.
  pose proof (byRow_cols pixels Hnd) as Hcols.
  induction (byRow pixels) as [| [r cols] m IH]; cbn [flat_map].
  - split; constructor.
  - inversion Hkeys as [| ? ? Hr Hm]; subst.
    inversion Hcols as [| ? ? Hc Hcm]; subst. cbn [fst snd] in *.
    destruct (IH Hm Hcm) as [IHw IHp]. clear IH.
    assert (Hrow :
      Forall (fun s => span_r s = r /\ 1 <= span_w s)
             (match sort_cols cols with
              | [] => []
              | c0 :: rest => row_spans r c0 c0 rest
              end) /\
      ForallOrdPairs apart
             (match sort_cols cols with
              | [] => []
              | c0 :: rest => row_spans r c0 c0 rest
              end)).
    { pose proof (sort_cols_sorted cols Hc) as Hs.
      destruct (sort_cols cols) as [| c0 rest]; [split; constructor |].
      inversion Hs as [| ? ? Hs' Hlt]; subst.
      destruct (row_spans_shape rest r c0 c0 (Z.le_refl _) Hs' Hlt) as [Hall Hp].
      split; [| exact Hp].
      eapply List.Forall_impl; [| exact Hall]. cbn. tauto. }
    destruct Hrow as [Hrw Hrp]. split.
    + apply Forall_app. split; [| exact IHw].
      eapply List.Forall_impl; [| exact Hrw]. cbn. tauto.
    + apply ForallOrdPairs_app; [exact Hrp | exact IHp |].
      intros a b Ha Hb Hrows. exfalso.
      rewrite List.Forall_forall in Hrw. destruct (Hrw a Ha) as [Hra _].
      apply in_flat_map in Hb. destruct Hb as ([r' cols'] & Hin & Hb). cbn [fst snd] in Hb.
      assert (Hrb : span_r b = r').
      { destruct (sort_cols cols') as [| c0 rest] eqn:E; [destruct Hb |].
        destruct (proj1 (row_spans_covers rest r' c0 c0 (span_r b) (span_c b)
                           (Z.le_refl _))) as [Hrb _]; [| exact Hrb].
        exists b. split; [exact Hb |]. unfold covers. split; [reflexivity |].
        assert (Hw : 1 <= span_w b).
        { rewrite List.Forall_forall in IHw. apply IHw.
          apply in_flat_map. exists (r', cols'). split; [exact Hin |].
          cbn [fst snd]. now rewrite E. }
        lia. }
      apply Hr. apply in_map_iff. exists (r', cols'). split; [| exact Hin].
      cbn. congruence.
Qed.

Lemma mergeSpans_no_seams_witness :
  ForallOrdPairs apart HEAD /\ length HEAD = 10%nat.
Proof.
  split; [| reflexivity].
  apply (mergeSpans_no_seams HEAD_PIXELS).
  unfold HEAD_PIXELS.
  repeat (constructor; [cbn; intuition discriminate |]). constructor.
Defined.
(* --------------------------------------------------------------------- *)
(** ** Geometry of the pose                                               *)
(* --------------------------------------------------------------------- *)

(** X3. In every reachable world the pose draws either no pupil (eyes
    closed) or exactly two, the first on a pixel of the left eye and the
    second on a pixel of the right eye: gaze offsets and the cross-eye
    override never move a pupil out of its eye. *)
Theorem pupils_stay_in_eyes (w : World) :
  reachable w ->
  (isBlinking (st w) = true /\ pose_pupils (render (st w)) = []) \/
  (isBlinking (st w) = false /\
   exists l r,
     pose_pupils (render (st w)) = [l; r] /\
     on_pixels l LEFT_EYE_PIXELS /\ on_pixels r RIGHT_EYE_PIXELS).
Proof.
  intros Hr. pose proof (reachable_height w Hr) as Hh. unfold height_ok in Hh.
  destruct (isBlinking (st w)) eqn:Hb.
  - left. split; [reflexivity |]. unfold render, eyesClosed. cbn. now rewrite Hb.
  - right. split; [reflexivity |].
    exists (leftP (st w)), (rightP (st w)). split.
    + unfold render, eyesClosed. cbn. now rewrite Hb.
    + unfold leftP, rightP, on_pixels, pupilX, pupilY.
      rewrite !pupil_axis_offset01. unfold offset01.
      destruct (isCrossEyed (st w)).
      * destruct Hh as [-> | ->]; cbn; tauto.
      * destruct (0 <? dir_x (effectivePupil (st w)));
          destruct (0 <? dir_y (effectivePupil (st w))); cbn; tauto.
Qed.

Lemma pupils_stay_in_eyes_witness :
  exists l r,
    pose_pupils (render (st cross_eyed_world)) = [l; r] /\
    on_pixels l LEFT_EYE_PIXELS /\ on_pixels r RIGHT_EYE_PIXELS.
Proof.
  destruct (pupils_stay_in_eyes cross_eyed_world cross_eyed_world_reachable)
    as [[Hb _] | [_ H]]; [discriminate Hb | exact H].
Defined.

(** X4. For every state the pose has four tentacle rects, one per limb in
    the order left outer, left inner, right inner, right outer.  A limb in
    the wiggle set moves one column outwards (left limbs to the left, right
    limbs to the right) and is drawn at opacity 0.65 instead of 0.45; rows
    and heights never change.  Whatever the set, the four rects stay in
    columns 2..10 in strictly increasing order, so no two limbs ever share
    a column; numbers other than 0..3 in the set have no effect. *)
Theorem tentacles_never_collide (s : State) :
  exists a b c d,
    pose_tentacles (render s) = [a; b; c; d] /\
    map (fun t => (tr_y t, tr_h t)) [a; b; c; d] = [(8, 3); (8, 2); (8, 2); (8, 3)] /\
    map (fun t => (tr_x t, tr_opacity t)) [a; b; c; d] =
      [ limb_at 2 3 (bool_decide (0 ∈ wiggleGroups s));
        limb_at 4 5 (bool_decide (1 ∈ wiggleGroups s));
        limb_at 8 7 (bool_decide (2 ∈ wiggleGroups s));
        limb_at 10 9 (bool_decide (3 ∈ wiggleGroups s)) ] /\
    2 <= tr_x a /\ tr_x a < tr_x b /\ tr_x b < tr_x c /\ tr_x c < tr_x d /\
    tr_x d <= 10 /\
    (forall s',
       wiggle_mask (wiggleGroups s') = wiggle_mask (wiggleGroups s) ->
       pose_tentacles (render s') = pose_tentacles (render s)).
Proof.
  exists (render_tentacle s 0 (mkTentacle 3 8 3)), (render_tentacle s 1 (mkTentacle 5 8 2)),
         (render_tentacle s 2 (mkTentacle 7 8 2)), (render_tentacle s 3 (mkTentacle 9 8 3)).
  split; [reflexivity |].
  split; [reflexivity |].
  unfold wiggle_mask, render_tentacle, limb_at. cbn [map fst snd tr_x tr_opacity t_c Z.ltb Z.compare].
  split; [| split; [| split; [| split; [| split; [| split]]]]];
    try (destruct (bool_decide (0 ∈ wiggleGroups s)), (bool_decide (1 ∈ wiggleGroups s)),
                  (bool_decide (2 ∈ wiggleGroups s)), (bool_decide (3 ∈ wiggleGroups s));
         cbn; (reflexivity || lia)).
  intros s' Hm. inversion Hm as [[H0 H1 H2 H3]].
  change (pose_tentacles (render s')) with
    [render_tentacle s' 0 (mkTentacle 3 8 3); render_tentacle s' 1 (mkTentacle 5 8 2);
     render_tentacle s' 2 (mkTentacle 7 8 2); render_tentacle s' 3 (mkTentacle 9 8 3)].
  change (pose_tentacles (render s)) with
    [render_tentacle s 0 (mkTentacle 3 8 3); render_tentacle s 1 (mkTentacle 5 8 2);
     render_tentacle s 2 (mkTentacle 7 8 2); render_tentacle s 3 (mkTentacle 9 8 3)].
  unfold render_tentacle. rewrite H0, H1, H2, H3. reflexivity.
Qed.
(* --------------------------------------------------------------------- *)
(** ** Invariants over the state and the pending callbacks                *)
(* --------------------------------------------------------------------- *)

Section Keeps.

Context (SP : State -> (nat -> Q) -> Prop) (good : Callback -> Prop).

Hypothesis H_mount : forall t0 random w, mount t0 random = Some w -> keeps SP good w.
Hypothesis H_cb :
  forall fuel cb, good cb -> preserves (keeps SP good) (run_callback fuel cb).
Hypothesis H_move : forall e svg, preserves (keeps SP good) (handler e svg).
Hypothesis H_enter : preserves (keeps SP good) handleMouseEnter.
Hypothesis H_leave : preserves (keeps SP good) handleMouseLeave.

Lemma keeps_clear (w : World) (id : nat) :
  keeps SP good w -> keeps SP good (with_host (with_timers (clear_id id)) w).
Proof.
  intros [HP HT]. split; [exact HP |]. cbn.
  rewrite List.Forall_forall in *. intros t Ht.
  apply List.filter_In in Ht. apply HT. tauto.
Qed.

Lemma keeps_unmount : preserves (keeps SP good) unmount.
Proof.
  unfold unmount.
  pres_go ltac:(intros ? H; first [exact H | apply keeps_clear; exact H]).
Qed.

Lemma keeps_fire (fuel : nat) : preserves (keeps SP good) (fire_next fuel).
Proof.
  intros w a w' [HP HT] E. unfold fire_next in E.
  destruct (pop_earliest (timers (host w))) as [[t rest] |] eqn:Ep.
  - destruct (pop_earliest_Forall _ _ _ _ HT Ep) as [Ht Hrest].
    eapply (H_cb fuel (timer_cb t) Ht); [| exact E]. split; [exact HP | exact Hrest].
  - inversion E; subst. split; assumption.
Qed.

Theorem reachable_keeps (w : World) : reachable w -> keeps SP good w.
Proof.
  induction 1 as [t0 random w E | ev w w' _ IH E].
  - exact (H_mount _ _ _ E).
  - destruct ev; unfold step in E.
    + destruct (Qle_bool 0 d); inversion E; subst. exact IH.
    + exact (exec_preserves _ _ _ _ (keeps_fire fuel) IH E).
    + destruct (mounted w); [| inversion E; subst; exact IH].
      exact (exec_preserves _ _ _ _ (H_move e svg) IH E).
    + destruct (mounted w); [| inversion E; subst; exact IH].
      exact (exec_preserves _ _ _ _ H_enter IH E).
    + destruct (mounted w); [| inversion E; subst; exact IH].
      exact (exec_preserves _ _ _ _ H_leave IH E).
    + destruct (mounted w); [| inversion E; subst; exact IH].
      exact (exec_preserves _ _ _ _ keeps_unmount IH E).
Qed.

End Keeps.

(** One primitive step under [keeps]: [tacP] shows the state part after a
    write, [tacG] that a scheduled callback is good. *)
Ltac side_keeps tacP tacG :=
  let w := fresh "w" in
  let H := fresh "H" in
  let HP := fresh "HP" in
  let HT := fresh "HT" in
  intros w H;
  first
    [ exact H
    | destruct H as [HP HT]; split;
      [ first [exact HP | tacP HP]
      | first [ exact HT
              | cbn; apply Forall_app; split;
                [exact HT | constructor; [tacG | constructor]] ] ] ].

Lemma mount_keeps SP good t0 random w :
  SP initial_state random ->
  good (CbEyeTrackEnd (pupilOffset initial_state)) ->
  good CbBlinkFire -> good CbFlashFire -> good CbIdleFire ->
  mount t0 random = Some w -> keeps SP good w.
Proof.
  intros HP G1 G2 G3 G4 E. cbv [mount mount_effects] in E. cbn in E.
  inversion E; subst. split; [exact HP |]. cbn. repeat constructor; assumption.
Qed.

(* --------------------------------------------------------------------- *)
(** ** The highlighted row                                                *)
(* --------------------------------------------------------------------- *)

Lemma flash_keeps_cb (fuel : nat) (cb : Callback) :
  flash_good cb ->
  preserves (keeps (fun s _ => band_row (flashRow s)) flash_good) (run_callback fuel cb).
Proof.
  intros Hg. destruct cb; unfold_code;
    pres_go ltac:(side_keeps ltac:(fun HP => cbn; first [exact Hg | exact HP])
                             ltac:(cbn; first [lia | exact I])).
Qed.

Lemma reachable_flash (w : World) :
  reachable w -> keeps (fun s _ => band_row (flashRow s)) flash_good w.
Proof.
  apply reachable_keeps.
  - intros t0 random w0. apply mount_keeps; exact I.
  - exact flash_keeps_cb.
  - intros e svg. unfold_code.
    pres_go ltac:(side_keeps ltac:(fun HP => exact HP) ltac:(exact I)).
  - unfold_code. pres_go ltac:(side_keeps ltac:(fun HP => exact HP) ltac:(exact I)).
  - unfold_code. pres_go ltac:(side_keeps ltac:(fun HP => exact HP) ltac:(exact I)).
Qed.

(** X5. In every reachable world the highlighted row is either none, and
    then the whole head is drawn in the body colour, or one of the rows
    1..6 of the head, and then exactly the spans of that row (there is at
    least one) are drawn in the eye colour. *)
Theorem flash_lights_one_head_row (w : World) :
  reachable w ->
  match flashRow (st w) with
  | None =>
      Forall (fun sf => snd sf = fill_body) (pose_head (render (st w)))
  | Some r =>
      1 <= r <= 6 /\
      (exists sp, In (sp, fill_eye) (pose_head (render (st w)))) /\
      (forall sp f, In (sp, f) (pose_head (render (st w))) ->
                    (f = fill_eye <-> span_r sp = r))
  end.
Proof.
  intros Hr. destruct (reachable_flash w Hr) as [HP _].
  unfold render. cbn [pose_head].
  destruct (flashRow (st w)) as [r |]; cbn in HP.
  - split; [exact HP |].
    assert (Hcases : r = 1 \/ r = 2 \/ r = 3 \/ r = 4 \/ r = 5 \/ r = 6) by lia.
    split.
    + destruct Hcases as [-> | [-> | [-> | [-> | [-> | ->]]]]];
        eexists; vm_compute; intuition.
    + intros sp f Hin.
      destruct Hcases as [-> | [-> | [-> | [-> | [-> | ->]]]]];
        vm_compute in Hin;
        repeat (destruct Hin as [Hin | Hin];
                [ inversion Hin; subst; cbn; split; intros X;
                  first [reflexivity | discriminate X] |]);
        destruct Hin.
  - vm_compute. repeat constructor.
Qed.
Lemma sweep_world_reachable : reachable sweep_world.
Proof.
  apply world_after_reachable.
  eexists. eexists. split; [vm_compute; reflexivity | vm_compute; reflexivity].
Defined.

Lemma wiggle_world_reachable : reachable wiggle_world.
Proof.
  apply world_after_reachable.
  eexists. eexists. split; [vm_compute; reflexivity | vm_compute; reflexivity].
Defined.

Lemma flash_lights_one_head_row_witness :
  match flashRow (st sweep_world) with
  | None => True
  | Some r => 1 <= r <= 6 /\ exists sp, In (sp, fill_eye) (pose_head (render (st sweep_world)))
  end.
Proof.
  pose proof (flash_lights_one_head_row sweep_world sweep_world_reachable) as H.
  destruct (flashRow (st sweep_world)); [| exact I].
  split; [apply H | apply H].
Defined.

(* --------------------------------------------------------------------- *)
(** ** The wiggle set                                                     *)
(* --------------------------------------------------------------------- *)

Section Draws.

Lemma floor_index (r : Q) (n : Z) :
  unit_draw r -> 0 < n -> 0 <= Math_floor (r * inject_Z n) < n.
Proof.
  intros [H0 H1] Hn. unfold Math_floor.
  assert (Hq : (inject_Z 0 < inject_Z n)%Q) by (rewrite <- Zlt_Qlt; exact Hn).
  change (inject_Z 0) with 0%Q in Hq.
  split.
  - change 0 with (Qfloor 0). apply Qfloor_resp_le.
    apply Qmult_le_0_compat; [exact H0 | apply Qlt_le_weak; exact Hq].
  - rewrite Zlt_Qlt.
    eapply Qle_lt_trans; [apply Qfloor_le |].
    eapply Qlt_le_trans; [apply Qmult_lt_compat_r; [exact Hq | exact H1] |].
    rewrite Qmult_1_l. apply Qle_refl.
Qed.

Lemma advance_rng_S (k : nat) (w : World) :
  advance_rng k (advance_rng 1 w) = advance_rng (S k) w.
Proof.
  destruct w as [s r [ts nid n rg ix] m]. unfold advance_rng, with_host. cbn.
  do 2 f_equal. lia.
Qed.

Lemma drawn_limbs (random : nat -> Q) (ix k : nat) :
  valid_draws random -> limbs_only (drawn random ix k).
Proof.
  intros Hv. revert ix. induction k as [| k IH]; intros ix x Hx; cbn [drawn] in Hx.
  - now apply not_elem_of_empty in Hx.
  - apply elem_of_union in Hx. destruct Hx as [Hx | Hx]; [| exact (IH _ _ Hx)].
    apply elem_of_singleton in Hx. subst x.
    pose proof (floor_index (random ix) 4 (Hv ix)) as H.
    change (inject_Z 4) with 4%Q in H. lia.
Qed.

End Draws.

Lemma draw_indices_facts (fuel count : nat) (indices : gset Z) (w : World) :
  (forall indices' w',
     draw_indices fuel count indices w = Some (indices', w') ->
     exists k,
       (k <= fuel)%nat /\
       w' = advance_rng k w /\
       indices' = indices ∪ drawn (rng (host w)) (rng_ix (host w)) k /\
       ((size indices <= count)%nat -> size indices' = count)) /\
  ((count <= size (indices ∪ drawn (rng (host w)) (rng_ix (host w)) fuel))%nat ->
   exists indices' w', draw_indices fuel count indices w = Some (indices', w')).
Proof.
  revert indices w. induction fuel as [| fuel IH]; intros indices w.
  - unfold draw_indices. split.
    + intros indices' w' E. destruct (Nat.ltb_spec (size indices) count).
      * discriminate.
      * inversion E; subst. exists 0%nat.
        split; [lia |].
        split; [destruct w' as [s r [ts nid n rg ix] m]; reflexivity |].
        split; [cbn [drawn]; now rewrite (right_id_L ∅ (∪)) | lia].
    + intros Hc. cbn [drawn] in Hc. rewrite (right_id_L ∅ (∪)) in Hc.
      destruct (Nat.ltb_spec (size indices) count); [lia |]. eauto.
  - change (draw_indices (S fuel) count indices)
      with (if (size indices <? count)%nat
            then bind Math_random (fun r =>
                   draw_indices fuel count (indices ∪ {[ Math_floor (r * 4) ]}))
            else ret indices).
    destruct (Nat.ltb_spec (size indices) count) as [Hlt | Hge].
    + set (x := Math_floor (rng (host w) (rng_ix (host w)) * 4)).
      assert (Hstep : forall k : World -> option (gset Z * World),
                 bind Math_random
                   (fun r => draw_indices fuel count (indices ∪ {[ Math_floor (r * 4) ]})) w
                 = draw_indices fuel count (indices ∪ {[ x ]}) (advance_rng 1 w))
        by (intros _; reflexivity).
      rewrite (Hstep (fun _ => None)). clear Hstep.
      destruct (IH (indices ∪ {[ x ]}) (advance_rng 1 w)) as [IH1 IH2].
      assert (Hd : forall k,
                 indices ∪ {[ x ]} ∪ drawn (rng (host w)) (S (rng_ix (host w))) k
                 = indices ∪ drawn (rng (host w)) (rng_ix (host w)) (S k)).
      { intros k. cbn [drawn]. fold x. now rewrite (assoc_L (∪)). }
      split.
      * intros indices' w' E. destruct (IH1 indices' w' E) as (k & Hk & Hw & Hi & Hs).
        exists (S k). split; [lia |]. split; [now rewrite <- advance_rng_S |].
        split; [rewrite Hi; apply Hd |].
        intros _. apply Hs.
        destruct (decide (x ∈ indices)) as [Hin | Hout].
        -- rewrite (union_comm_L indices), subseteq_union_1_L; [lia |].
           now apply singleton_subseteq_l.
        -- rewrite size_union by now apply disjoint_singleton_r.
           rewrite size_singleton. lia.
      * intros Hc. apply IH2. cbn [advance_rng with_host host rng rng_ix Nat.add].
        rewrite Hd. exact Hc.
    + split.
      * intros indices' w' E. inversion E; subst. exists 0%nat.
        split; [lia |].
        split; [destruct w' as [s r [ts nid n rg ix] m]; reflexivity |].
        split; [cbn [drawn]; now rewrite (right_id_L ∅ (∪)) | lia].
      * intros _. unfold ret. eauto.
Qed.

(** X6. The index loop of the idle wiggle.  When it returns it has made
    some number k of draws, at most its fuel, and nothing else changed in
    the world; the set it returns is the one it started from joined with
    the indices floor(4r) of those k draws, and if it started with at most
    [count] indices it returns exactly [count] of them.  It does return
    whenever the draws within its fuel produce enough distinct indices. *)
Theorem draw_indices_spec (fuel count : nat) (indices : gset Z) (w : World) :
  (forall indices' w',
     draw_indices fuel count indices w = Some (indices', w') ->
     exists k,
       (k <= fuel)%nat /\
       w' = advance_rng k w /\
       indices' = indices ∪ drawn (rng (host w)) (rng_ix (host w)) k /\
       ((size indices <= count)%nat -> size indices' = count)) /\
  ((count <= size (indices ∪ drawn (rng (host w)) (rng_ix (host w)) fuel))%nat ->
   exists indices' w', draw_indices fuel count indices w = Some (indices', w')).
Proof. exact (draw_indices_facts fuel count indices w). Qed.
Section WiggleBand.

Lemma limbs_only_empty : limbs_only ∅.
Proof. intros x Hx. now apply not_elem_of_empty in Hx. Qed.

Lemma limbs_only_singleton (gi : Z) : 0 <= gi <= 3 -> limbs_only {[ gi ]}.
Proof. intros H x Hx. apply elem_of_singleton in Hx. now subst. Qed.

Lemma limbs_only_enter :
  limbs_only {[1; 2]} /\ limbs_only {[0; 1; 2; 3]} /\ limbs_only {[0; 3]}.
Proof.
  split; [| split]; intros x Hx;
    repeat (apply elem_of_union in Hx; destruct Hx as [Hx | Hx]);
    apply elem_of_singleton in Hx; lia.
Qed.

Lemma wiggle_keeps_cb (fuel : nat) (cb : Callback) :
  wiggle_good cb -> preserves (keeps wiggle_SP wiggle_good) (run_callback fuel cb).
Proof.
  intros Hg.
  assert (Hrest : forall r : Q,
             preserves (keeps wiggle_SP wiggle_good)
               (_ <- setTimeout (CbSetWiggleGroups ∅) (250 + r * 200) ;; ret tt)).
  { intros r.
    pres_go ltac:(side_keeps ltac:(fun HP => exact HP)
                             ltac:(cbn; exact limbs_only_empty)). }
  destruct cb; unfold_code;
    try (pres_go ltac:(side_keeps
                         ltac:(fun HP => cbn; intros _;
                                 first [exact Hg | apply limbs_only_singleton; exact Hg])
                         ltac:(cbn; first [exact I | exact limbs_only_empty | lia]));
         fail).
  (* the idle gesture: the drawn indices need the specification of the loop *)
  apply pres_bind; [pres_go ltac:(side_keeps ltac:(fun HP => exact HP) ltac:(exact I)) |].
  intros roll. apply pres_bind;
    [| intros _; pres_go ltac:(side_keeps ltac:(fun HP => exact HP) ltac:(exact I))].
  destruct (Qlt_bool roll lit_0_40).
  - apply pres_bind;
      [pres_go ltac:(side_keeps ltac:(fun HP => exact HP) ltac:(exact I)) |].
    intros c w a w' [HP HT] E. unfold bind at 1 in E.
    destruct (draw_indices fuel _ ∅ w) as [[indices w1] |] eqn:Ed; [| discriminate].
    destruct (proj1 (draw_indices_facts _ _ _ _) _ _ Ed) as (k & _ & -> & -> & _).
    unfold bind at 1, setState at 1 in E. unfold bind at 1, Math_random at 1 in E.
    eapply (Hrest _); [| exact E].
    split; [| exact HT].
    intros Hv x Hx. apply elem_of_union in Hx.
    destruct Hx as [Hx | Hx]; [now apply not_elem_of_empty in Hx |].
    exact (drawn_limbs _ _ _ Hv x Hx).
  - pres_go ltac:(side_keeps
                    ltac:(fun HP => cbn; intros Hv; exact (HP Hv))
                    ltac:(cbn; first [exact I | lia])).
Qed.

Lemma reachable_wiggle (w : World) :
  reachable w -> keeps wiggle_SP wiggle_good w.
Proof.
  apply reachable_keeps.
  - intros t0 random w0. apply mount_keeps; try exact I.
    intros _. exact limbs_only_empty.
  - exact wiggle_keeps_cb.
  - intros e svg. unfold_code.
    pres_go ltac:(side_keeps ltac:(fun HP => exact HP) ltac:(exact I)).
  - destruct limbs_only_enter as (H12 & H0123 & H03). unfold_code.
    pres_go ltac:(side_keeps ltac:(fun HP => exact HP)
                             ltac:(cbn; first [exact I | assumption
                                              | exact limbs_only_empty])).
  - unfold_code. pres_go ltac:(side_keeps ltac:(fun HP => exact HP) ltac:(exact I)).
Qed.

End WiggleBand.

Lemma cyc_draws_valid : valid_draws cyc_draws.
Proof.
  intros n. unfold cyc_draws, unit_draw, Qle, Qlt. cbn.
  pose proof (Nat.mod_upper_bound n 7). lia.
Qed.

(** X7. With a random source that stays in [0,1), the wiggle set of every
    reachable world holds limb indices 0..3 only, so every displaced index
    is a limb the pose draws; the same holds of every set a pending
    callback is going to write. *)
Theorem wiggle_set_is_limbs (w : World) :
  reachable w ->
  valid_draws (rng (host w)) ->
  limbs_only (wiggleGroups (st w)) /\
  (forall t g, In t (timers (host w)) -> timer_cb t = CbSetWiggleGroups g ->
               limbs_only g).
Proof.
  intros Hr Hv. destruct (reachable_wiggle w Hr) as [HP HT]. split.
  - exact (HP Hv).
  - intros t g Hin Hcb. rewrite List.Forall_forall in HT.
    specialize (HT t Hin). now rewrite Hcb in HT.
Qed.

Lemma wiggle_set_is_limbs_witness :
  wiggleGroups (st wiggle_world) = {[2; 3]} /\
  limbs_only (wiggleGroups (st wiggle_world)).
Proof.
  split; [vm_compute; reflexivity |].
  assert (E : rng (host wiggle_world) = cyc_draws) by (vm_compute; reflexivity).
  apply (wiggle_set_is_limbs wiggle_world wiggle_world_reachable).
  rewrite E. exact cyc_draws_valid.
Defined.
(* --------------------------------------------------------------------- *)
(** ** The idle gesture                                                   *)
(* --------------------------------------------------------------------- *)

Ltac normal_world_all :=
  cbv [with_host with_st with_refs with_mounted with_timers with_now advance_rng
       host st refs mounted timers next_id now rng rng_ix
       blinkRef idleRef eyeRef flashRef lastMouseMoveRef].

Ltac new_timers_of :=
  unfold scheduled, new_timers; normal_world_all; rewrite <- ?List.app_assoc;
  rewrite skipn_app_exact; reflexivity.

Ltac last_handle_of :=
  unfold last_handle; normal_world_all; rewrite <- ?List.app_assoc;
  rewrite rev_app_distr; reflexivity.

(* --------------------------------------------------------------------- *)
(** ** The eye cycle                                                      *)
(* --------------------------------------------------------------------- *)

Section EyeCycle.

Lemma js_index_floor {A} (l : list A) (r : Q) :
  unit_draw r -> l <> [] ->
  exists d, js_index l (Math_floor (r * inject_Z (Z.of_nat (length l)))) = Some d /\
            In d l.
Proof.
  intros Hr Hl.
  assert (Hn : 0 < Z.of_nat (length l)) by (destruct l; [congruence | cbn; lia]).
  pose proof (floor_index r _ Hr Hn) as [H0 H1].
  unfold js_index.
  destruct (Z.ltb_spec (Math_floor (r * inject_Z (Z.of_nat (length l)))) 0); [lia |].
  destruct (nth_error l (Z.to_nat (Math_floor (r * inject_Z (Z.of_nat (length l))))))
    as [d |] eqn:E.
  - exists d. split; [reflexivity | exact (nth_error_In _ _ E)].
  - apply nth_error_None in E. lia.
Qed.

Lemma away_dirs_nonempty (mouseX mouseY : Z) : away_dirs mouseX mouseY <> [].
Proof.
  assert (H : In (mkDir 1 1) (away_dirs mouseX mouseY) \/
              In (mkDir (-1) (-1)) (away_dirs mouseX mouseY)).
  { unfold away_dirs.
    destruct (Z.eq_dec mouseX 1) as [-> | Hx].
    - destruct (Z.eq_dec mouseY 1) as [-> | Hy].
      + right. apply List.filter_In. split; [cbn; tauto | reflexivity].
      + left. apply List.filter_In. split; [cbn; tauto |]. cbn [dir_x dir_y].
        apply orb_true_iff. right. apply negb_true_iff, Z.eqb_neq. congruence.
    - left. apply List.filter_In. split; [cbn; tauto |]. cbn [dir_x dir_y].
      apply orb_true_iff. left. apply negb_true_iff, Z.eqb_neq. congruence. }
  intros E. rewrite E in H. destruct H as [[] | []].
Qed.

Lemma away_dirs_incl (mouseX mouseY : Z) (d : Dir) :
  In d (away_dirs mouseX mouseY) -> In d LOOK_DIRS.
Proof. unfold away_dirs. intros H. now apply List.filter_In in H. Qed.

End EyeCycle.

Lemma eye_track_end_facts (p0 : Dir) (w : World) :
  valid_draws (rng (host w)) ->
  exists w' t,
    eye_track_end p0 w = Some (tt, w') /\
    same_but_gaze_mode (st w) (st w') /\
    rng (host w') = rng (host w) /\
    mounted w' = mounted w /\
    new_timers w w' = [t] /\
    eyeRef (refs w') = Some (timer_id t) /\
    ((mouse_idle w < 2000)%Q ->
     eyeMode (st w') = track /\ randomPupil (st w') = None /\
     timer_cb t = CbEyeTrackEnd p0 /\
     (now (host w) + 5000 <= timer_due t)%Q /\
     (timer_due t < now (host w) + 8000)%Q) /\
    ((2000 <= mouse_idle w)%Q ->
     eyeMode (st w') = wander /\
     (exists d, randomPupil (st w') = Some d /\ In d LOOK_DIRS /\
                d <> mkDir (sign_axis (dir_x p0)) (sign_axis (dir_y p0))) /\
     timer_cb t = CbEyeCycle p0 /\
     (now (host w) + 800 <= timer_due t)%Q /\
     (timer_due t < now (host w) + 2000)%Q).
Proof.
  intros Hv. destruct w as [s r [ts nid n rg ix] mt]. cbn in Hv.
  unfold mouse_idle. cbn [host refs now].
  unfold eye_track_end, bind at 1, Date_now at 1.
  unfold bind at 1, getRefs at 1. cbn [host refs now].
  destruct (Qlt_bool (n - lastMouseMoveRef r) 2000) eqn:Hi.
  - do 2 eexists. split.
    { unfold cycle, bind, setState, Math_random, setTimeout, put_eyeRef.
      cbn [host rng rng_ix with_host with_st]. reflexivity. }
    split; [destruct s; reflexivity |].
    split; [reflexivity |]. split; [reflexivity |].
    split; [unfold new_timers; normal_world_all; rewrite skipn_app_exact;
            reflexivity |].
    split; [reflexivity |].
    split.
    + intros _. split; [reflexivity |]. split; [reflexivity |].
      split; [reflexivity |]. cbn [timer_due].
      destruct (Hv ix) as [H0 H1]. split; lra.
    + intros H. apply Qlt_bool_false_iff in H. congruence.
  - destruct (js_index_floor
                (away_dirs (sign_axis (dir_x p0)) (sign_axis (dir_y p0)))
                (rg ix) (Hv ix) (away_dirs_nonempty _ _)) as (d & Hd & Hin).
    do 2 eexists. split.
    { unfold bind, setState, Math_random, setTimeout, put_eyeRef.
      cbn [host rng rng_ix with_host with_st]. reflexivity. }
    split; [destruct s; reflexivity |].
    split; [reflexivity |]. split; [reflexivity |].
    split; [unfold new_timers; normal_world_all; rewrite skipn_app_exact;
            reflexivity |].
    split; [reflexivity |].
    split.
    + intros H. apply Qlt_bool_iff in H. congruence.
    + intros _. split; [reflexivity |]. split.
      * exists d. split; [cbn; exact Hd |].
        split; [exact (away_dirs_incl _ _ _ Hin) |].
        exact (away_dirs_excludes _ _ _ _ Hd).
      * split; [reflexivity |]. cbn [timer_due].
        destruct (Hv (S ix)) as [H0 H1]. split; lra.
Qed.



(* --------------------------------------------------------------------- *)
(** ** Pointer moves and the gaze                                         *)
(* --------------------------------------------------------------------- *)

Section GazeFacts.

Lemma gaze_axis_unit (d : Q) : unit_axis (gaze_axis d).
Proof.
  unfold gaze_axis, unit_axis.
  destruct (Qlt_bool dead (Math_abs d)); [destruct (Qlt_bool 0 d) |]; auto.
Qed.

Lemma LOOK_DIRS_unit (d : Dir) :
  In d LOOK_DIRS -> unit_axis (dir_x d) /\ unit_axis (dir_y d).
Proof.
  unfold unit_axis. cbn. intros H.
  repeat (destruct H as [<- | H]; [cbn; auto |]). destruct H.
Qed.

Lemma eye_track_end_rng (p0 : Dir) (R : nat -> Q) :
  preserves (fun w => rng (host w) = R) (eye_track_end p0).
Proof. unfold_code. pres_go ltac:(intros ? H; exact H). Qed.

End GazeFacts.

Lemma handler_facts (e : MouseEvent) (svg : option DOMRect) (w : World) :
  exists w',
    handler e svg w = Some (tt, w') /\
    eyeMode (st w') = track /\
    effectivePupil (st w') = pupilOffset (st w') /\
    (eyeMode (st w) = wander -> randomPupil (st w') = None) /\
    lastMouseMoveRef (refs w') = now (host w) /\
    host w' = host w /\
    mounted w' = mounted w /\
    (svg = None -> pupilOffset (st w') = pupilOffset (st w)) /\
    (svg <> None ->
     unit_axis (dir_x (pupilOffset (st w'))) /\
     unit_axis (dir_y (pupilOffset (st w')))) /\
    (forall d p0 w1,
       (d < 2000)%Q ->
       step (EvTick d) w' = Some w1 ->
       exists w2,
         eye_track_end p0 w1 = Some (tt, w2) /\
         eyeMode (st w2) = track /\ randomPupil (st w2) = None).
Proof.
  destruct w as [s r [ts nid n rg ix] mt].
  unfold handler, bind, Date_now, put_lastMouseMoveRef, getState.
  cbn [host now with_refs st].
  assert (Hdefer : forall s' r' d p0 w1,
             (d < 2000)%Q ->
             step (EvTick d)
               (mkWorld s'
                  (mkRefs (blinkRef r') (idleRef r') (eyeRef r') (flashRef r') n)
                  (mkHost ts nid n rg ix) mt) = Some w1 ->
             exists w2,
               eye_track_end p0 w1 = Some (tt, w2) /\
               eyeMode (st w2) = track /\ randomPupil (st w2) = None).
  { intros s' r' d p0 w1 Hd E. cbn [step] in E.
    destruct (Qle_bool 0 d); inversion E; subst w1; clear E.
    unfold eye_track_end, bind at 1, Date_now at 1. unfold bind at 1, getRefs at 1.
    cbn [with_host with_now host refs now lastMouseMoveRef].
    assert (Hi : Qlt_bool (n + d - n) 2000 = true) by (apply Qlt_bool_iff; lra).
    rewrite Hi. eexists.
    split; [unfold cycle, bind, setState, Math_random, setTimeout, put_eyeRef;
            cbn [host rng rng_ix with_host with_st]; reflexivity |].
    split; reflexivity. }
  destruct (eyeMode s) eqn:Hm; destruct svg as [rect |];
    (eexists; split; [cbn; reflexivity |]);
    cbn [st refs host mounted with_st setState setEyeMode setRandomPupil
         setPupilOffset eyeMode randomPupil pupilOffset effectivePupil
         lastMouseMoveRef dir_x dir_y];
    (split; [first [exact Hm | reflexivity] |]);
    (split; [unfold effectivePupil; cbn; try rewrite Hm; reflexivity |]);
    (split; [intros H; first [discriminate H | reflexivity] |]);
    (split; [reflexivity |]); (split; [reflexivity |]); (split; [reflexivity |]);
    (split; [intros H; first [discriminate H | reflexivity] |]);
    (split; [intros H; first [now contradiction H
                             | split; apply gaze_axis_unit] |]);
    intros d p0 w1 Hd E; exact (Hdefer _ r d p0 w1 Hd E).
Qed.


Section GazeInvariant.

Lemma Forall_True (ts : list Timer) : Forall (fun _ : Timer => True) ts.
Proof. apply List.Forall_forall. intros; exact I. Qed.

Lemma gaze_keeps_cb (fuel : nat) (cb : Callback) :
  preserves (keeps gaze_SP (fun _ => True)) (run_callback fuel cb).
Proof.
  destruct cb;
    try (unfold_code;
         pres_go ltac:(side_keeps ltac:(fun HP => exact HP) ltac:(exact I)); fail).
  - (* the end of a track phase *)
    intros w a w' [HP _] E. split; [| apply Forall_True].
    intros Hv. cbn [run_callback] in E.
    pose proof (eye_track_end_rng pupilOffset0 _ w a w' eq_refl E) as Hrng.
    rewrite Hrng in Hv.
    destruct (eye_track_end_facts pupilOffset0 w Hv)
      as (w2 & t & Hrun & Hsame & _ & _ & _ & _ & Hrecent & Hidle).
    rewrite Hrun in E. inversion E; subst w2; clear E.
    destruct (HP Hv) as (_ & Hx & Hy).
    assert (Hp : pupilOffset (st w') = pupilOffset (st w)).
    { unfold same_but_gaze_mode in Hsame. rewrite <- Hsame. reflexivity. }
    unfold gaze_ok. rewrite Hp. split; [| split; assumption].
    destruct (Qlt_le_dec (mouse_idle w) 2000) as [Hlt | Hge].
    + left. destruct (Hrecent Hlt) as (H1 & H2 & _). now split.
    + right. destruct (Hidle Hge) as (H1 & (d & Hd & Hin & _) & _).
      split; [exact H1 | exists d; now split].
  - (* [cycle] *)
    intros w a w' [HP _] E. split; [| apply Forall_True].
    cbv [run_callback cycle bind setState Math_random setTimeout put_eyeRef] in E.
    inversion E; subst w'; clear E. intros Hv.
    destruct (HP Hv) as (_ & Hx & Hy).
    split; [left; split; reflexivity | split; assumption].
Qed.

Lemma gaze_keeps_move (e : MouseEvent) (svg : option DOMRect) :
  preserves (keeps gaze_SP (fun _ => True)) (handler e svg).
Proof.
  intros w a w' [HP _] E. split; [| apply Forall_True].
  destruct (handler_facts e svg w)
    as (w2 & Hrun & Hm & _ & Hw & _ & Hhost & _ & Hnone & Hsome & _).
  rewrite Hrun in E. inversion E; subst w2; clear E.
  rewrite Hhost. intros Hv. destruct (HP Hv) as (Hmode & Hx & Hy).
  split.
  - left. split; [exact Hm |].
    destruct Hmode as [[Ht Hn] | [Hwd _]]; [| exact (Hw Hwd)].
    (* already tracking: the handler leaves the wander target alone *)
    destruct w as [s r h mt]. cbn in Ht, Hn.
    unfold handler, bind, Date_now, put_lastMouseMoveRef, getState in Hrun.
    cbn [st with_refs] in Hrun. rewrite Ht in Hrun.
    destruct svg; cbn in Hrun; inversion Hrun; subst w'; exact Hn.
  - destruct svg as [rect |].
    + apply Hsome. discriminate.
    + rewrite (Hnone eq_refl). now split.
Qed.

Lemma reachable_gaze (w : World) :
  reachable w -> keeps gaze_SP (fun _ => True) w.
Proof.
  apply reachable_keeps.
  - intros t0 random w0. apply mount_keeps; try exact I.
    intros _. split; [left; split; reflexivity |].
    split; right; left; reflexivity.
  - intros fuel cb _. apply gaze_keeps_cb.
  - exact gaze_keeps_move.
  - unfold_code. pres_go ltac:(side_keeps ltac:(fun HP => exact HP) ltac:(exact I)).
  - unfold_code. pres_go ltac:(side_keeps ltac:(fun HP => exact HP) ltac:(exact I)).
Qed.

End GazeInvariant.

(** X11. With a random source that stays in [0,1), every reachable world
    is either tracking with no wander target stored, or wandering towards
    one of the eight directions; the tracked target has components -1, 0 or
    1, and so has the target the pose is resolved from. *)
Theorem gaze_target_well_formed (w : World) :
  reachable w ->
  valid_draws (rng (host w)) ->
  mode_ok (st w) /\
  unit_axis (dir_x (pupilOffset (st w))) /\
  unit_axis (dir_y (pupilOffset (st w))) /\
  unit_axis (dir_x (effectivePupil (st w))) /\
  unit_axis (dir_y (effectivePupil (st w))).
Proof.
  intros Hr Hv. destruct (reachable_gaze w Hr) as [HP _].
  destruct (HP Hv) as (Hmode & Hx & Hy).
  split; [exact Hmode |]. split; [exact Hx |]. split; [exact Hy |].
  unfold effectivePupil.
  destruct Hmode as [[-> _] | [-> (d & -> & Hin)]]; [now split |].
  exact (LOOK_DIRS_unit d Hin).
Qed.

Lemma gaze_target_well_formed_witness :
  mode_ok (st wiggle_world) /\ eyeMode (st wiggle_world) = track.
Proof.
  assert (E : rng (host wiggle_world) = cyc_draws) by (vm_compute; reflexivity).
  split; [| vm_compute; reflexivity].
  apply (gaze_target_well_formed wiggle_world wiggle_world_reachable).
  rewrite E. exact cyc_draws_valid.
Defined.
(* --------------------------------------------------------------------- *)
(** ** The loops whose handle is always stored                            *)
(* --------------------------------------------------------------------- *)

Section Loops.

Lemma pop_earliest_split (ts rest : list Timer) (t : Timer) :
  pop_earliest ts = Some (t, rest) ->
  exists l1 l2, ts = l1 ++ t :: l2 /\ rest = l1 ++ l2.
Proof.
  revert t rest. induction ts as [| u ts IH]; intros t rest E; cbn in E.
  - discriminate.
  - destruct (pop_earliest ts) as [[m rest'] |] eqn:Ep.
    + destruct (Qle_bool (timer_due u) (timer_due m)); inversion E; subst; clear E.
      * exists []. eexists. split; reflexivity.
      * destruct (IH t rest' eq_refl) as (l1 & l2 & -> & ->).
        exists (u :: l1), l2. split; reflexivity.
    + inversion E; subst. exists [], []. destruct ts as [| v ts]; [split; reflexivity |].
      cbn in Ep. destruct (pop_earliest ts) as [[? ?] |];
        [destruct (Qle_bool _ _) |]; discriminate.
Qed.

Lemma loop_timers_app (L : Loop) (l l' : list Timer) :
  loop_timers L (l ++ l') = loop_timers L l ++ loop_timers L l'.
Proof. unfold loop_timers. apply List.filter_app. Qed.

(** Popping a timer from a queue with at most one loop timer. *)
Lemma pop_earliest_loop (L : Loop) (ts rest : list Timer) (t : Timer) :
  pop_earliest ts = Some (t, rest) ->
  (loop_timers L ts = [] -> loop_cb L (timer_cb t) = false /\ loop_timers L rest = []) /\
  (forall t0, loop_timers L ts = [t0] ->
     if loop_cb L (timer_cb t)
     then t = t0 /\ loop_timers L rest = []
     else loop_timers L rest = [t0]).
Proof.
  intros E. destruct (pop_earliest_split _ _ _ E) as (l1 & l2 & -> & ->).
  rewrite !loop_timers_app. cbn [loop_timers List.filter]. fold (loop_timers L l2).
  destruct (loop_cb L (timer_cb t)); split.
  - intros H. apply app_eq_nil in H. destruct H as [_ H]. discriminate H.
  - intros t0 H.
    destruct (loop_timers L l1) as [| a l1']; cbn in H.
    + inversion H; subst. split; [reflexivity |]. now rewrite H2.
    + inversion H; subst. destruct l1'; discriminate.
  - intros H. split; [reflexivity | exact H].
  - intros t0 H. exact H.
Qed.

Lemma loop_timers_clear (L : Loop) (id : nat) (ts : list Timer) :
  loop_timers L (clear_id id ts) = clear_id id (loop_timers L ts).
Proof.
  unfold loop_timers, clear_id. induction ts as [| t ts IH]; cbn; [reflexivity |].
  destruct (negb (timer_id t =? id)%nat) eqn:E1;
    destruct (loop_cb L (timer_cb t)) eqn:E2; cbn; rewrite ?E1, ?E2, IH; reflexivity.
Qed.

Lemma clear_id_single (id : nat) (t : Timer) :
  clear_id id [t] = [] \/ clear_id id [t] = [t].
Proof. unfold clear_id. cbn. destruct (negb _); auto. Qed.

Lemma clear_id_own (t : Timer) : clear_id (timer_id t) [t] = [].
Proof. unfold clear_id. cbn. now rewrite Nat.eqb_refl. Qed.

Lemma clear_opt_sub (h : option nat) (t : Timer) (l : list Timer) :
  l = [] \/ l = [t] -> clear_opt h l = [] \/ clear_opt h l = [t].
Proof.
  intros [-> | ->]; destruct h as [id |]; cbn; auto. apply clear_id_single.
Qed.

Lemma clear_opt_own (t : Timer) : clear_opt (Some (timer_id t)) [t] = [].
Proof. apply clear_id_own. Qed.

Lemma clear_opt_nil (h : option nat) : clear_opt h [] = [].
Proof. destruct h; reflexivity. Qed.

Lemma unmount_timers (w : World) :
  unmount w =
    Some (tt, mkWorld (st w) (refs w)
                (mkHost (clear_opt (idleRef (refs w))
                           (clear_opt (flashRef (refs w))
                              (clear_opt (blinkRef (refs w))
                                 (clear_opt (eyeRef (refs w)) (timers (host w))))))
                        (next_id (host w)) (now (host w)) (rng (host w))
                        (rng_ix (host w)))
                false).
Proof.
  destruct w as [s [b i e f l] [ts nid n rg ix] mt].
  unfold unmount, bind, getRefs, clearTimeout. cbn.
  destruct e, b, f, i; reflexivity.
Qed.

Lemma loop_timers_clear_opt (L : Loop) (h : option nat) (ts : list Timer) :
  loop_timers L (clear_opt h ts) = clear_opt h (loop_timers L ts).
Proof. destruct h; [apply loop_timers_clear | reflexivity]. Qed.

Lemma unmount_loop (L : Loop) (w w' : World) :
  loop_tracked L w -> mounted w = true -> exec unmount w = Some w' ->
  loop_tracked L w'.
Proof.
  intros H Hm E. unfold exec in E. rewrite unmount_timers in E.
  inversion E; subst w'; clear E.
  unfold loop_tracked in *. rewrite Hm in H. destruct H as (t & Hp & Href).
  cbn [mounted]. unfold loop_pending in *. cbn [host timers refs].
  rewrite !loop_timers_clear_opt, Hp.
  destruct L; cbn [loop_ref] in Href; rewrite Href.
  - rewrite clear_opt_own, !clear_opt_nil. reflexivity.
  - destruct (clear_opt_sub (blinkRef (refs w)) t (clear_opt (eyeRef (refs w)) [t]))
      as [-> | ->];
      [apply clear_opt_sub; auto | | ];
      rewrite ?clear_opt_own, ?clear_opt_nil; reflexivity.
  - destruct (clear_opt_sub (flashRef (refs w)) t
                (clear_opt (blinkRef (refs w)) (clear_opt (eyeRef (refs w)) [t])))
      as [-> | ->];
      [apply clear_opt_sub; apply clear_opt_sub; auto | | ];
      rewrite ?clear_opt_own, ?clear_opt_nil; reflexivity.
Qed.

(** A callback outside the loop neither adds a timer of the loop nor
    writes its ref. *)
Lemma schedules_outside (L : Loop) (cb cb' : Callback) :
  loop_cb L cb = false -> In cb' (schedules cb) -> loop_cb L cb' = false.
Proof.
  destruct L, cb; cbn; try discriminate; intros _ H;
    repeat (destruct H as [<- | H]; [reflexivity |]); contradiction.
Qed.

Lemma run_callback_ref (L : Loop) (fuel : nat) (cb : Callback) (v : option nat) :
  loop_cb L cb = false ->
  preserves (fun w => loop_ref L (refs w) = v) (run_callback fuel cb).
Proof.
  destruct L, cb; cbn [loop_cb]; try discriminate; intros _; unfold_code;
    pres_go ltac:(intros ? H; exact H).
Qed.

Lemma grew_by_loop (L : Loop) (cbs : list Callback) (w0 w : World) :
  (forall cb, In cb cbs -> loop_cb L cb = false) ->
  grew_by cbs w0 w ->
  loop_pending L w = loop_pending L w0 /\ mounted w = mounted w0.
Proof.
  intros HL [Hm (added & Ht & Hall)]. split; [| exact Hm].
  unfold loop_pending. rewrite Ht, loop_timers_app.
  assert (E : loop_timers L added = []).
  { clear Ht. induction Hall as [| t l Ht _ IH]; cbn; [reflexivity |].
    rewrite (HL _ Ht). exact IH. }
  now rewrite E, app_nil_r.
Qed.

Lemma outside_loop (L : Loop) (fuel : nat) (cb : Callback) (w w' : World) :
  loop_cb L cb = false ->
  loop_tracked L w -> run_callback fuel cb w = Some (tt, w') -> loop_tracked L w'.
Proof.
  intros Hcb H E.
  pose proof (run_callback_grew fuel cb w w tt w' (grew_by_refl _ w) E) as G.
  destruct (grew_by_loop L _ w w' (fun cb' => schedules_outside L cb cb' Hcb) G)
    as [Hp Hm].
  pose proof (run_callback_ref L fuel cb _ Hcb w tt w' eq_refl E) as Href.
  unfold loop_tracked in *. now rewrite Hm, Hp, Href.
Qed.

(** A callback of the loop schedules the next one and stores its handle. *)
Lemma inside_loop (L : Loop) (fuel : nat) (cb : Callback) (w w' : World) :
  loop_cb L cb = true ->
  loop_pending L w = [] ->
  run_callback fuel cb w = Some (tt, w') ->
  mounted w' = mounted w /\
  exists t, loop_pending L w' = [t] /\ loop_ref L (refs w') = Some (timer_id t).
Proof.
  intros Hcb Hp E.
  pose proof (run_callback_grew fuel cb w w tt w' (grew_by_refl _ w) E) as [Hm _].
  split; [exact Hm |]. clear Hm.
  destruct w as [s r [ts nid n rg ix] mt]. unfold loop_pending in *.
  cbn [host timers] in Hp.
  destruct L, cb; cbn [loop_cb] in Hcb; try discriminate Hcb; cbn [run_callback] in E.
  - (* end of a track phase *)
    unfold eye_track_end, bind at 1, Date_now at 1 in E.
    unfold bind at 1, getRefs at 1 in E. cbn [host refs now] in E.
    destruct (Qlt_bool _ 2000);
      cbv [cycle bind setState Math_random setTimeout put_eyeRef] in E;
      inversion E; subst w'; clear E; normal_world_all;
      rewrite loop_timers_app, Hp; eexists; split; reflexivity.
  - cbv [cycle bind setState Math_random setTimeout put_eyeRef] in E.
    inversion E; subst w'; clear E. normal_world_all.
    rewrite loop_timers_app, Hp. eexists. split; reflexivity.
  - cbv [flash_fire flash_schedule forEach bind ret setState Math_random setTimeout
         put_flashRef] in E.
    inversion E; subst w'; clear E. normal_world_all.
    rewrite <- !List.app_assoc, loop_timers_app, Hp. eexists. split; reflexivity.
  - (* the idle gesture *)
    unfold idle_fire, bind at 1, Math_random at 1 in E.
    cbn [host rng rng_ix with_host] in E.
    destruct (Qlt_bool (rg ix) lit_0_40).
    + unfold bind at 1 in E. unfold bind at 1, Math_random at 1 in E.
      cbn [host rng rng_ix with_host] in E. unfold bind at 1 in E.
      match type of E with
      | context [draw_indices fuel ?c ∅ ?w1] =>
          destruct (draw_indices fuel c ∅ w1) as [[indices w2] |] eqn:Ed;
          [| discriminate];
          destruct (proj1 (draw_indices_facts fuel c ∅ w1) _ _ Ed)
            as (k & _ & -> & _ & _)
      end.
      cbv [idle_schedule bind ret setState Math_random setTimeout put_idleRef] in E.
      inversion E; subst w'; clear E. normal_world_all.
      rewrite <- !List.app_assoc, loop_timers_app, Hp. eexists. split; reflexivity.
    + destruct (Qlt_bool (rg ix) lit_0_60); [| destruct (Qlt_bool (rg ix) lit_0_80)];
        cbv [idle_schedule forEach bind ret setState Math_random setTimeout
             put_idleRef] in E;
        inversion E; subst w'; clear E; normal_world_all;
        rewrite <- ?List.app_assoc, loop_timers_app, Hp; eexists; split; reflexivity.
Qed.

Lemma fire_next_loop (L : Loop) (fuel : nat) (w w' : World) :
  loop_tracked L w -> exec (fire_next fuel) w = Some w' -> loop_tracked L w'.
Proof.
  intros H E. unfold exec, fire_next in E.
  destruct (pop_earliest (timers (host w))) as [[t rest] |] eqn:Ep;
    [| inversion E; subst; exact H].
  match type of E with
  | context [run_callback fuel (timer_cb t) ?w1] =>
      set (w1' := w1) in *;
      destruct (run_callback fuel (timer_cb t) w1') as [[[] w2] |] eqn:Er;
      [| discriminate]
  end.
  inversion E; subst w2; clear E.
  destruct (pop_earliest_loop L _ _ _ Ep) as [Hnil Hone].
  unfold loop_tracked in H.
  destruct (loop_cb L (timer_cb t)) eqn:Hcb.
  - (* the loop timer itself fires: only possible while mounted *)
    destruct (mounted w) eqn:Hm.
    + destruct H as (t0 & Hp & _). specialize (Hone t0 Hp). destruct Hone as [_ Hrest].
      destruct (inside_loop L fuel _ w1' w' Hcb Hrest Er) as [Hm' Ht].
      unfold loop_tracked. rewrite Hm'. subst w1'. unfold with_host. cbn [mounted].
      rewrite Hm. exact Ht.
    + destruct (Hnil H) as [Hf _]. discriminate Hf.
  - apply (outside_loop L fuel (timer_cb t) w1' w' Hcb); [| exact Er].
    unfold loop_tracked, loop_pending. subst w1'. unfold with_host.
    cbn [mounted host timers refs].
    destruct (mounted w).
    + destruct H as (t0 & Hp & Href). exists t0. split; [exact (Hone t0 Hp) | exact Href].
    + exact (proj2 (Hnil H)).
Qed.

Lemma quiet_loop (L : Loop) (cbs : list Callback) (m : M unit) (w w' : World) :
  (forall cb, In cb cbs -> loop_cb L cb = false) ->
  preserves (grew_by cbs w) m ->
  preserves (fun w1 => loop_ref L (refs w1) = loop_ref L (refs w)) m ->
  loop_tracked L w -> exec m w = Some w' -> loop_tracked L w'.
Proof.
  intros HL Hg Hr H E.
  pose proof (exec_preserves _ m w w' Hg (grew_by_refl cbs w) E) as G.
  destruct (grew_by_loop L cbs w w' HL G) as [Hp Hm].
  pose proof (exec_preserves _ m w w' Hr eq_refl E) as Href.
  unfold loop_tracked in *. now rewrite Hm, Hp, Href.
Qed.

Lemma step_loop (L : Loop) (ev : Event) (w w' : World) :
  loop_tracked L w -> step ev w = Some w' -> loop_tracked L w'.
Proof.
  intros H E. destruct ev; unfold step in E.
  - destruct (Qle_bool 0 d); inversion E; subst. exact H.
  - exact (fire_next_loop L fuel w w' H E).
  - destruct (mounted w) eqn:Hm; [| inversion E; subst; exact H].
    apply (quiet_loop L [] (handler e svg) w w'); auto.
    + intros cb [].
    + unfold_code; pres_go side_grew.
    + destruct L; unfold_code; pres_go ltac:(intros ? H0; exact H0).
  - destruct (mounted w) eqn:Hm; [| inversion E; subst; exact H].
    apply (quiet_loop L
             [CbSetIsBlinking false; CbSetWiggleGroups {[1; 2]};
              CbSetWiggleGroups {[0; 1; 2; 3]}; CbSetWiggleGroups {[0; 3]};
              CbSetWiggleGroups ∅] handleMouseEnter w w'); auto.
    + intros cb Hin. cbn in Hin.
      repeat (destruct Hin as [<- | Hin]; [destruct L; reflexivity |]). contradiction.
    + unfold_code; pres_go side_grew.
    + destruct L; unfold_code; pres_go ltac:(intros ? H0; exact H0).
  - destruct (mounted w) eqn:Hm; [| inversion E; subst; exact H].
    apply (quiet_loop L [] handleMouseLeave w w'); auto.
    + intros cb [].
    + unfold_code; pres_go side_grew.
    + destruct L; unfold_code; pres_go ltac:(intros ? H0; exact H0).
  - destruct (mounted w) eqn:Hm; [| inversion E; subst; exact H].
    exact (unmount_loop L w w' H Hm E).
Qed.

End Loops.

(** X12. The eye cycle, the flash sweep and the idle gesture each keep the
    handle of their one loop timeout in their ref: in every reachable world
    that is mounted, exactly one such timeout is pending per loop and the
    ref holds its handle; in every reachable world that is unmounted, none
    is pending, so these three loops never start another cycle after
    teardown. *)
Theorem loops_cancelled_by_unmount (L : Loop) (w : World) :
  reachable w ->
  (mounted w = true ->
   exists t, loop_pending L w = [t] /\ loop_ref L (refs w) = Some (timer_id t)) /\
  (mounted w = false -> loop_pending L w = []).
Proof.
  intros Hr.
  assert (H : loop_tracked L w).
  { induction Hr as [t0 random w E | ev w w' _ IH E].
    - cbv [mount mount_effects] in E. cbn in E. inversion E; subst.
      unfold loop_tracked. cbn [mounted]. destruct L; eexists; split; reflexivity.
    - exact (step_loop L ev w w' IH E). }
  unfold loop_tracked in H. destruct (mounted w); split; intros Hm;
    first [discriminate Hm | exact H].
Qed.

Lemma swept_away_world_reachable : reachable swept_away_world.
Proof.
  apply world_after_reachable.
  eexists. eexists. split; [vm_compute; reflexivity | vm_compute; reflexivity].
Defined.

Lemma loops_cancelled_by_unmount_witness :
  mounted swept_away_world = false /\
  loop_pending flash_loop swept_away_world = [] /\
  length (timers (host swept_away_world)) = 4%nat.
Proof.
  assert (Hm : mounted swept_away_world = false) by (vm_compute; reflexivity).
  split; [exact Hm |]. split; [| vm_compute; reflexivity].
  exact (proj2 (loops_cancelled_by_unmount flash_loop swept_away_world
                  swept_away_world_reachable) Hm).
Defined.
(* --------------------------------------------------------------------- *)
(** ** Timelines                                                          *)
(* --------------------------------------------------------------------- *)

Section Timeline.

Lemma trace_of_step {X} (obs : World -> X) (fuel k : nat) (w w' : World) :
  exec (fire_next fuel) w = Some w' ->
  trace_of obs fuel (S k) w = (now (host w'), obs w') :: trace_of obs fuel k w'.
Proof. intros E. cbn [trace_of]. now rewrite E. Qed.

(** Firing when the timer that runs next is known. *)
Lemma fire_next_pick fuel s r ts a m l2 nid n rg ix mt :
  Forall (fun t => (timer_due m < timer_due t)%Q) ts ->
  Forall (fun t => (timer_due m < timer_due t)%Q) a ->
  Forall (fun t => (timer_due m <= timer_due t)%Q) l2 ->
  exec (fire_next fuel) (mkWorld s r (mkHost (ts ++ a ++ m :: l2) nid n rg ix) mt) =
  exec (run_callback fuel (timer_cb m))
       (mkWorld s r
          (mkHost (ts ++ a ++ l2) nid
                  (if Qle_bool (timer_due m) n then n else timer_due m) rg ix) mt).
Proof.
  intros H1 Ha H2. unfold exec, fire_next. cbn [timers host now].
  rewrite (pop_earliest_mid ts a l2 m H1 Ha H2). reflexivity.
Qed.

Lemma clock_later (d n : Q) : (n < d)%Q -> (if Qle_bool d n then n else d) = d.
Proof.
  intros H. apply Qlt_bool_iff in H. unfold Qlt_bool in H.
  apply negb_true_iff in H. now rewrite H.
Qed.

Lemma clock_same (d n : Q) : (d <= n)%Q -> (if Qle_bool d n then n else d) = n.
Proof. intros H. apply Qle_bool_iff in H. now rewrite H. Qed.

End Timeline.

(** The delays [i * 70] and [i * 150] of the source, evaluated. *)
Ltac normal_delays :=
  repeat match goal with
         | |- context [(inject_Z ?k * ?c)%Q] =>
             let v := eval vm_compute in (inject_Z k * c)%Q in
             change (inject_Z k * c)%Q with v
         end.

Ltac due_order Hq :=
  first [ eapply List.Forall_impl; [| exact Hq]; cbn beta; intros; cbn [timer_due]; lra
        | repeat (constructor; [cbn [timer_due]; lra |]); constructor ].

(** One step of a timeline: the timer after the prefix [a] of the timers
    created since [ts] runs next. *)
Ltac trace_step Hq ts a :=
  erewrite trace_of_step;
  [| etransitivity;
     [ apply (fire_next_pick _ _ _ ts a); due_order Hq
     | first [rewrite clock_later by (cbn [timer_due]; lra)
             | rewrite clock_same by (cbn [timer_due]; lra)];
       cbn; reflexivity ] ];
  normal_world_all; rewrite <- ?List.app_assoc; cbn [app].

Ltac trace_done :=
  unfold same_trace;
  repeat (constructor; [split; [cbn [fst]; ring | reflexivity] |]); constructor.

(** X13. The flash sweep.  The flash timer schedules seven timeouts and
    the next flash, whose handle goes to [flashRef].  With a draw in [0,1)
    and nothing else due in the next 420 ms, the next seven timers to run
    highlight rows 1, 2, 3, 4, 5, 6 at +0, +70, +140, +210, +280, +350 ms
    and clear the highlight at +420 ms. *)
Theorem flash_sweep_timeline (fuel : nat) (w : World) :
  unit_draw (next_draw w) ->
  quiet_for 420 w ->
  let n := now (host w) in
  exists w0,
    flash_fire w = Some (tt, w0) /\
    st w0 = st w /\
    scheduled w w0 =
      [ CbSetFlashRow (Some 1); CbSetFlashRow (Some 2); CbSetFlashRow (Some 3);
        CbSetFlashRow (Some 4); CbSetFlashRow (Some 5); CbSetFlashRow (Some 6);
        CbSetFlashRow None; CbFlashFire ] /\
    flashRef (refs w0) = last_handle w0 /\
    same_trace (trace_of (fun w' => flashRow (st w')) fuel 7 w0)
      [ (n, Some 1); ((n + 70)%Q, Some 2); ((n + 140)%Q, Some 3);
        ((n + 210)%Q, Some 4); ((n + 280)%Q, Some 5); ((n + 350)%Q, Some 6);
        ((n + 420)%Q, None) ].
Proof.
  intros [H0 H1] Hq n. destruct w as [s r [ts nid t0 rg ix] mt].
  unfold quiet_for in Hq. cbn in Hq, H0, H1, n. subst n.
  eexists. split; [cbn; reflexivity |].
  split; [reflexivity |]. split; [new_timers_of |]. split; [last_handle_of |].
  normal_world_all. rewrite <- ?List.app_assoc. cbn [app]. normal_delays.
  trace_step Hq ts (@nil Timer).
  trace_step Hq ts (@nil Timer).
  trace_step Hq ts (@nil Timer).
  trace_step Hq ts (@nil Timer).
  trace_step Hq ts (@nil Timer).
  trace_step Hq ts (@nil Timer).
  trace_step Hq ts (@nil Timer).
  trace_done.
Qed.
Lemma flash_sweep_timeline_witness :
  exists w0, flash_fire (quiet_world []) = Some (tt, w0) /\
             flashRef (refs w0) = last_handle w0.
Proof.
  assert (Hd : unit_draw (next_draw (quiet_world []))).
  { split; [apply Qle_refl | reflexivity]. }
  assert (Hq : quiet_for 420 (quiet_world [])) by constructor.
  destruct (flash_sweep_timeline 0 (quiet_world []) Hd Hq)
    as (w0 & Hrun & _ & _ & Href & _).
  exists w0. split; assumption.
Defined.





(** X16. The three blink episodes.  With nothing else due in the next
    310 ms the blink timer closes the eyes at once and then: for a draw
    below 0.25 the eyes open at +80 ms, close at +230 and open at +310; for
    a draw from 0.25 to 0.40 they open at +250; for a draw from 0.40 they
    open at +100. *)
Theorem blink_episode_timelines (fuel : nat) (w : World) :
  quiet_for 310 w ->
  let n := now (host w) in
  let flag := fun w' : World => isBlinking (st w') in
  exists w0,
    blink_fire w = Some (tt, w0) /\
    isBlinking (st w0) = true /\
    ((next_draw w < 25 # 100)%Q ->
     same_trace (trace_of flag fuel 3 w0)
       [ ((n + 80)%Q, false); ((n + 230)%Q, true); ((n + 310)%Q, false) ]) /\
    ((25 # 100 <= next_draw w)%Q /\ (next_draw w < 40 # 100)%Q ->
     same_trace (trace_of flag fuel 1 w0) [ ((n + 250)%Q, false) ]) /\
    ((40 # 100 <= next_draw w)%Q ->
     same_trace (trace_of flag fuel 1 w0) [ ((n + 100)%Q, false) ]).
Proof.
  intros Hq n flag. destruct w as [s r [ts nid t0 rg ix] mt].
  unfold quiet_for in Hq. unfold next_draw. cbn in Hq, n. cbn [host rng rng_ix].
  subst n flag.
  unfold blink_fire, bind, Math_random. cbn [host rng rng_ix with_host].
  destruct (Qlt_bool (rg ix) lit_0_25) eqn:E1;
    [| destruct (Qlt_bool (rg ix) lit_0_40) eqn:E2];
    (eexists; split; [cbn; reflexivity |]); (split; [reflexivity |]);
    normal_world_all; (split; [| split]); intros H.
  - trace_step Hq ts (@nil Timer).
    trace_step Hq ts (@nil Timer).
    trace_step Hq ts (@nil Timer).
    trace_done.
  - destruct H as [H _]. apply Qlt_bool_false_iff in H.
    unfold lit_0_25 in E1. congruence.
  - assert (H' : (25 # 100 <= rg ix)%Q).
    { eapply Qle_trans; [| exact H]. vm_compute. intros X; discriminate X. }
    apply Qlt_bool_false_iff in H'. unfold lit_0_25 in E1. congruence.
  - apply Qlt_bool_iff in H. unfold lit_0_25 in E1. congruence.
  - trace_step Hq ts (@nil Timer). trace_done.
  - apply Qlt_bool_false_iff in H. unfold lit_0_40 in E2. congruence.
  - apply Qlt_bool_iff in H. unfold lit_0_25 in E1. congruence.
  - destruct H as [_ H]. apply Qlt_bool_iff in H. unfold lit_0_40 in E2. congruence.
  - trace_step Hq ts (@nil Timer). trace_done.
Qed.

Lemma blink_episode_timelines_witness :
  exists w0, blink_fire (quiet_world []) = Some (tt, w0) /\
             isBlinking (st w0) = true.
Proof.
  assert (Hq : quiet_for 310 (quiet_world [])) by constructor.
  destruct (blink_episode_timelines 0 (quiet_world []) Hq) as (w0 & Hrun & Hb & _).
  exists w0. split; assumption.
Defined.
(* --------------------------------------------------------------------- *)
(** ** Delays of the loops                                                *)
(* --------------------------------------------------------------------- *)




